(** * Linear-chain CRF scoring and decoding, and the trainer's updater

    A shallow embedding of [chainer/functions/loss/crf1d.py] and
    [chainer/trainer/updater.py].

    Tensors are nested lists in row-major order: a [(B, L)] array is a list
    of [B] rows of [L] scalars, a [(B, L, L)] array a list of [B] matrices.
    Scalars are an abstract type [R] with exact arithmetic; the laws a
    theorem needs are section hypotheses.  Label indices are natural
    numbers.  A Python exception is [None]: an index outside an array and
    a [reshape] to a different size raise.  The shape checks of the
    elementwise operations and of [broadcast] are not modelled (a shorter
    operand truncates the result); the theorems carry the shapes of the
    data model as hypotheses. *)

From stdpp Require Import base list option strings gmap.
From Stdlib Require Import ZArith Lia.

Set Warnings "-register-all".

(** ** Row-major regrouping, shared by every [reshape] *)

(** [chunks w n flat]: the [n] consecutive blocks of width [w] of [flat]. *)
Fixpoint chunks {A} (w n : nat) (flat : list A) : list (list A) :=
  match n with
  | 0 => []
  | S n' => take w flat :: chunks w n' (drop w flat)
  end.

(** numpy broadcasting of one axis: an axis of length 1 is repeated. *)
Definition stretch {A} (n : nat) (l : list A) : list A :=
  match l with
  | [v] => replicate n v
  | _ => l
  end.

Module Crf1d.

Section crf1d.
Context {R : Type}.
(** The scalar [0] of [score = 0], addition, subtraction, the order used
    by [max]/[argmax], and the log-sum-exp of a one-dimensional slice. *)
Variable Rzero : R.
Variables Radd Rsub : R → R → R.
Variable Rleb : R → R → bool.
Variable lse : list R → R.

Local Abbreviation vec := (list R).
Local Abbreviation matrix := (list (list R)).
Local Abbreviation tensor3 := (list (list (list R))).
Local Abbreviation ivec := (list nat).
Local Abbreviation imatrix := (list (list nat)).

(** What the variable [cost] of [crf1d_viterbi] can hold: the [(L, L)]
    argument, or the [(B, L, L)] tensor assigned to it inside the loop. *)
Inductive ndarray :=
  | Mat (m : matrix)
  | Ten (t : tensor3).

(** *** Array primitives *)

(** Modelled from the spec: [reshape.reshape] is not in the source tree.
    [reshape(a, (d0, d1, 1))] regroups the row-major data of [a]; it
    raises when the sizes differ. *)
Definition reshape_3d (a : matrix) (d0 d1 : nat) : option tensor3 :=
  let flat := mjoin a in
  if decide (length flat = d0 * d1 * 1)
  then Some (chunks d1 d0 (chunks 1 (d0 * d1) flat))
  else None.

(** Modelled from the spec: [reshape(cost, (cost.data.size, 1))]. *)
Definition reshape_flat (a : matrix) : matrix :=
  let flat := mjoin a in chunks 1 (length flat) flat.

(** Modelled from the spec: [reshape(e, (n_batch,))] of a 2-d array. *)
Definition reshape_1d (e : matrix) (d0 : nat) : option vec :=
  let flat := mjoin e in
  if decide (length flat = d0) then Some flat else None.

(** Modelled from the spec: [broadcast.broadcast] is not in the source
    tree.  The first argument has shape [(B, L, 1)]; its last axis is
    repeated along the rows of the second argument, and a 2-d second
    argument is repeated along the batch axis. *)
Definition broadcast (a : tensor3) (c : ndarray) : tensor3 * tensor3 :=
  match c with
  | Mat m =>
      (fmap (λ ab, zip_with (λ ai crow, stretch (length crow) ai) ab m) a,
       fmap (λ _, m) a)
  | Ten t =>
      (zip_with (λ ab m,
         zip_with (λ ai crow, stretch (length crow) ai) ab m) a t,
       t)
  end.

(** Modelled from the spec: elementwise [+] and [-] of two arrays of the
    same shape, on one, two and three axes. *)
Definition vadd (u v : vec) : vec := zip_with Radd u v.
Definition vsub (u v : vec) : vec := zip_with Rsub u v.
Definition madd (a b : matrix) : matrix := zip_with vadd a b.
Definition tadd (a b : tensor3) : tensor3 := zip_with madd a b.

(** Slices along axis 1 of one [(Lp, Ln)] block: column [j] collects the
    entries [m[i][j]] over the previous-label index [i]. *)
Definition ncols (m : matrix) : nat :=
  match m with
  | [] => 0
  | r :: _ => length r
  end.
Definition column (m : matrix) (j : nat) : vec := fmap (λ r, nth j r Rzero) m.
Definition columns (m : matrix) : list vec := fmap (column m) (seq 0 (ncols m)).

(** A reduction over axis 1 of a [(B, Lp, Ln)] tensor: shape [(B, Ln)]. *)
Definition reduce_axis1 {A} (f : vec → A) (t : tensor3) : list (list A) :=
  fmap (λ m, fmap f (columns m)) t.

(** Modelled from the spec: [logsumexp.logsumexp(_, axis=1)], on a 3-d and
    on a 2-d argument. *)
Definition logsumexp_3d (t : tensor3) : matrix := reduce_axis1 lse t.
Definition logsumexp_2d (a : matrix) : vec := fmap lse a.

(** The larger of two scalars; the first is kept on a tie. *)
Definition Rmax (best x : R) : R := if Rleb x best then best else x.

(** Modelled from the spec: [minmax.max] is not in the source tree.  The
    maximum of a slice; the spec leaves the empty slice open, here it is
    [Rzero]. *)
Definition max_list (l : vec) : R :=
  match l with
  | [] => Rzero
  | v :: l' => foldl Rmax v l'
  end.

(** Modelled from the spec: [minmax.argmax] is not in the source tree.  A
    left-to-right scan that moves only to a strictly larger entry, so that
    the index of the first occurrence of the maximum is kept; the spec
    leaves the empty slice open, here it gives index [0]. *)
Fixpoint argmax_scan (best : R) (besti i : nat) (l : vec) : nat :=
  match l with
  | [] => besti
  | x :: l' =>
      if Rleb x best then argmax_scan best besti (S i) l'
      else argmax_scan x i (S i) l'
  end.
Definition argmax_list (l : vec) : nat :=
  match l with
  | [] => 0
  | v :: l' => argmax_scan v 0 1 l'
  end.

(** [minmax.max(_, axis=1)] and [minmax.argmax(_, axis=1)] on a 3-d
    argument, and [minmax.argmax(_, axis=1)] on a 2-d one. *)
Definition max_3d (t : tensor3) : matrix := reduce_axis1 max_list t.
Definition argmax_3d (t : tensor3) : imatrix := reduce_axis1 argmax_list t.
Definition argmax_2d (a : matrix) : ivec := fmap argmax_list a.

(** Modelled from the spec: [embed_id.embed_id(ids, W)] looks up row
    [ids[b]] of [W] for every batch item; an index outside [W] raises. *)
Definition embed_id (ids : ivec) (W : matrix) : option matrix :=
  mapM (λ i, W !! i) ids.

(** Modelled from the spec: [select_item.select_item(x, y)] picks
    [x[b][y[b]]] for every batch item. *)
Definition select_item (x : matrix) (y : ivec) : option vec :=
  if decide (length x = length y)
  then mapM (λ '(row, l), row !! l) (zip x y)
  else None.

(** [y1 * n_label + y2] on index vectors. *)
Definition flat_index (n_label : nat) (y1 y2 : ivec) : ivec :=
  zip_with (λ a b, a * n_label + b) y1 y2.

(** The accumulator [score]: the Python number [0] until the first
    [score += v], a vector afterwards. *)
Inductive score_t :=
  | PyZero
  | PyVec (v : vec).

Definition score_add (s : score_t) (v : vec) : score_t :=
  match s with
  | PyZero => PyVec (fmap (Radd Rzero) v)
  | PyVec u => PyVec (vadd u v)
  end.

(** [logz - score]. *)
Definition sub_score (logz : vec) (s : score_t) : vec :=
  match s with
  | PyZero => fmap (λ z, Rsub z Rzero) logz
  | PyVec v => vsub logz v
  end.

(** *** [crf1d] *)

(** One iteration of [for x in xs[1:]] (lines 15-17). *)
Definition forward_step (n_batch n_label : nat) (cost : matrix)
    (alpha x : matrix) : option matrix :=
  a3 ← reshape_3d alpha n_batch n_label;
  let '(b_alpha, b_cost) := broadcast a3 (Mat cost) in
  Some (madd (logsumexp_3d (tadd b_alpha b_cost)) x).

Fixpoint forward_loop (n_batch n_label : nat) (cost : matrix)
    (alpha : matrix) (xs : list matrix) : option matrix :=
  match xs with
  | [] => Some alpha
  | x :: xs' =>
      alpha' ← forward_step n_batch n_label cost alpha x;
      forward_loop n_batch n_label cost alpha' xs'
  end.

(** [for y1, y2 in zip(ys[:-1], ys[1:])] (lines 23-25); [cost] is the
    flattened [(L*L, 1)] matrix. *)
Fixpoint transition_loop (n_batch n_label : nat) (cost : matrix)
    (score : score_t) (pairs : list (ivec * ivec)) : option score_t :=
  match pairs with
  | [] => Some score
  | (y1, y2) :: pairs' =>
      e ← embed_id (flat_index n_label y1 y2) cost;
      v ← reshape_1d e n_batch;
      transition_loop n_batch n_label cost (score_add score v) pairs'
  end.

(** [for x, y in zip(xs, ys)] (lines 26-27). *)
Fixpoint emission_loop (score : score_t) (pairs : list (matrix * ivec))
    : option score_t :=
  match pairs with
  | [] => Some score
  | (x, y) :: pairs' =>
      v ← select_item x y;
      emission_loop (score_add score v) pairs'
  end.

(** [ys[:-1]]. *)
Definition but_last {A} (l : list A) : list A := take (length l - 1) l.

Definition crf1d (cost : matrix) (xs : list matrix) (ys : list ivec)
    : option vec :=
  let n_label := length cost in
  x0 ← head xs;
  let n_batch := length x0 in
  alpha ← forward_loop n_batch n_label cost x0 (tail xs);
  let logz := logsumexp_2d alpha in
  let cost' := reshape_flat cost in
  score ← transition_loop n_batch n_label cost' PyZero
            (zip (but_last ys) (tail ys));
  score ← emission_loop score (zip xs ys);
  Some (sub_score logz score).

(** *** [crf1d_viterbi] *)

(** The local variables the loop of [crf1d_viterbi] updates. *)
Record vstate := VState {
  v_alpha : matrix;
  v_cost : ndarray;
  v_max_inds : list imatrix
}.

(** One iteration of [for x in xs[1:]] (lines 39-44).  Line 41 assigns
    the sum to [cost], which the next iteration broadcasts against. *)
Definition viterbi_step (n_batch n_label : nat) (st : vstate) (x : matrix)
    : option vstate :=
  a3 ← reshape_3d (v_alpha st) n_batch n_label;
  let '(b_alpha, b_cost) := broadcast a3 (v_cost st) in
  let cost := tadd b_alpha b_cost in
  let max_ind := argmax_3d cost in
  Some (VState (madd (max_3d cost) x) (Ten cost)
               (v_max_inds st ++ [max_ind])).

Fixpoint viterbi_loop (n_batch n_label : nat) (st : vstate)
    (xs : list matrix) : option vstate :=
  match xs with
  | [] => Some st
  | x :: xs' =>
      st' ← viterbi_step n_batch n_label st x;
      viterbi_loop n_batch n_label st' xs'
  end.

(** [m.data[range(len(inds)), inds]]: entry [b] is [m[b][inds[b]]]. *)
Definition gather (m : imatrix) (inds : ivec) : option ivec :=
  mapM (λ '(b, i), row ← m !! b; row !! i) (zip (seq 0 (length inds)) inds).

(** [for m in reversed(max_inds)] (lines 48-50), given the reversed list. *)
Fixpoint backtrace (ms : list imatrix) (inds : ivec) (path : list ivec)
    : option (list ivec) :=
  match ms with
  | [] => Some path
  | m :: ms' =>
      inds' ← gather m inds;
      backtrace ms' inds' (path ++ [inds'])
  end.

Definition crf1d_viterbi (cost : matrix) (xs : list matrix)
    : option (matrix * list ivec) :=
  let n_label := length cost in
  x0 ← head xs;
  let n_batch := length x0 in
  st ← viterbi_loop n_batch n_label (VState x0 (Mat cost) []) (tail xs);
  let alpha := v_alpha st in
  let inds := argmax_2d alpha in
  path ← backtrace (reverse (v_max_inds st)) inds [inds];
  Some (alpha, reverse path).

(** *** Shapes of the data model (section 3 of the spec) *)

(** A [(B, L)] array, and a [(B,)] vector of label indices in [[0, L)]. *)
Definition is_mat {A} (B L : nat) (m : list (list A)) : Prop :=
  length m = B ∧ Forall (λ r, length r = L) m.
Definition is_labels (B L : nat) (y : ivec) : Prop :=
  length y = B ∧ Forall (λ l, l < L) y.
Definition is_imat (B L : nat) (m : imatrix) : Prop :=
  length m = B ∧ Forall (is_labels L L) m.

(** *** The quantities the spec names, read index by index *)

Definition get2 (m : matrix) (i j : nat) : R := nth j (nth i m []) Rzero.
Definition geti (y : ivec) (b : nat) : nat := nth b y 0.
Definition Rsum (l : vec) : R := foldl Radd Rzero l.

(** [alpha_t[b][j] = logsumexp_i(alpha_{t-1}[b][i] + cost[i][j]) + x_t[b][j]]. *)
Definition spec_alpha_step (cost : matrix) (L : nat) (prev : nat → nat → R)
    (x : matrix) : nat → nat → R :=
  λ b j, Radd (lse (fmap (λ i, Radd (prev b i) (get2 cost i j)) (seq 0 L)))
              (get2 x b j).

(** The recurrence started from [alpha = xs[0]]. *)
Definition spec_alpha (cost : matrix) (L : nat) (xs : list matrix)
    : nat → nat → R :=
  foldl (spec_alpha_step cost L) (get2 (nth 0 xs [])) (tail xs).

(** [logZ[b] = logsumexp_l(alpha[b][l])]. *)
Definition spec_logZ (cost : matrix) (L : nat) (xs : list matrix) (b : nat)
    : R :=
  lse (fmap (spec_alpha cost L xs b) (seq 0 L)).

(** [score[b]]: the transition costs [cost[ys[t][b]][ys[t+1][b]]] over
    consecutive positions plus the emissions [xs[t][b][ys[t][b]]]. *)
Definition transition_terms (cost : matrix) (ys : list ivec) (b : nat)
    : list R :=
  fmap (λ t, get2 cost (geti (nth t ys []) b) (geti (nth (S t) ys []) b))
       (seq 0 (length ys - 1)).
Definition emission_terms (xs : list matrix) (ys : list ivec) (b : nat)
    : list R :=
  fmap (λ t, get2 (nth t xs []) b (geti (nth t ys []) b))
       (seq 0 (length xs)).
Definition spec_score (cost : matrix) (xs : list matrix) (ys : list ivec)
    (b : nat) : R :=
  Radd (Rsum (transition_terms cost ys b)) (Rsum (emission_terms xs ys b)).

(** The tensor the spec's Viterbi step forms from [alpha] and the
    transition matrix: entry [[b][i][j]] is [alpha[b][i] + cost[i][j]]. *)
Definition spec_tensor (B L : nat) (alpha cost : matrix) : tensor3 :=
  fmap (λ b, fmap (λ i, fmap (λ j, Radd (get2 alpha b i) (get2 cost i j))
                          (seq 0 L)) (seq 0 L)) (seq 0 B).

(** [k] is the first index at which the slice [l] attains its maximum. *)
Definition first_max (l : vec) (k : nat) : Prop :=
  ∃ v, l !! k = Some v
       ∧ (∀ i w, l !! i = Some w → Rleb w v = true)
       ∧ (∀ i w, i < k → l !! i = Some w → Rleb v w = false).

(** The label sequence of batch item [b] in a decoded path. *)
Definition item_path (path : list ivec) (b : nat) : ivec :=
  fmap (λ inds, geti inds b) path.

(** [score(x, y)] of the label sequence [y] for batch item [b]. *)
Definition path_score (cost : matrix) (xs : list matrix) (y : ivec)
    (b : nat) : R :=
  spec_score cost xs (fmap (λ l, replicate (S b) l) y) b.

(** *** Per-item forms of the loop bodies, used in the proofs *)

(** Entry [[i][j]] is [a[i] + c[i][j]]. *)
Definition pair_scores (c : matrix) (a : vec) : matrix :=
  zip_with (λ v crow, Radd v <$> crow) a c.

(** The [(L, L)] block of each batch item in the variable [cost]. *)
Definition blocks (B : nat) (c : ndarray) : tensor3 :=
  match c with
  | Mat m => replicate B m
  | Ten t => t
  end.

(** The shapes the local variables of [crf1d_viterbi] keep. *)
Definition wf_state (B L : nat) (st : vstate) : Prop :=
  is_mat B L (v_alpha st)
  ∧ length (blocks B (v_cost st)) = B
  ∧ Forall (is_mat L L) (blocks B (v_cost st))
  ∧ Forall (is_imat B L) (v_max_inds st).

(** [alpha] holds the values of [f] on [[0, B) × [0, L)]. *)
Definition represents (B L : nat) (alpha : matrix) (f : nat → nat → R)
    : Prop :=
  is_mat B L alpha ∧ ∀ b j, b < B → j < L → get2 alpha b j = f b j.

(** [s] holds, for every batch item, the sum of the terms [F b] added so
    far. *)
Definition score_rep (B : nat) (s : score_t) (F : nat → list R) : Prop :=
  match s with
  | PyZero => ∀ b, b < B → F b = []
  | PyVec v =>
      length v = B ∧ ∀ b, b < B → v !! b = Some (foldl Radd Rzero (F b))
  end.

(** The batch formed by stacking two batches position by position. *)
Definition stack {A} (xsA xsB : list (list A)) : list (list A) :=
  zip_with app xsA xsB.

(** The decoder state of a stacked batch, against the states of its two
    parts. *)
Definition merged (BA BB : nat) (stA stB st : vstate) : Prop :=
  v_alpha st = v_alpha stA ++ v_alpha stB
  ∧ blocks (BA + BB) (v_cost st)
    = blocks BA (v_cost stA) ++ blocks BB (v_cost stB)
  ∧ v_max_inds st = stack (v_max_inds stA) (v_max_inds stB)
  ∧ length (v_max_inds stA) = length (v_max_inds stB).

(** *** Further readings of the decoder's variables *)

(** Entry [[b][i][j]] of a 3-d tensor. *)
Definition get3 (t : tensor3) (b i j : nat) : R :=
  nth j (nth i (nth b t []) []) Rzero.

(** Entry [[b][i][j]] of what the variable [cost] holds: the transition
    matrix does not depend on the batch item. *)
Definition cost_entry (c : ndarray) (b i j : nat) : R :=
  match c with
  | Mat m => get2 m i j
  | Ten t => get3 t b i j
  end.

(** A path follows a list of backpointer tables: each of its vectors is
    gathered from the table of its position at the vector that comes next. *)
Inductive follows : list imatrix → list ivec → Prop :=
  | follows_last (p : ivec) : follows [] [p]
  | follows_step (m : imatrix) (ms : list imatrix) (p q : ivec)
      (rest : list ivec) :
      gather m q = Some p → follows ms (q :: rest) →
      follows (m :: ms) (p :: q :: rest).

End crf1d.

End Crf1d.

(** ** The updater callbacks of [chainer/trainer/updater.py] *)

Module Updater.

Section updater.
(** Raw arrays, with their [size] attribute, and the loss functions a
    user supplies are opaque here. *)
Context {array callable : Type}.
Variable size : array → nat.

(** Modelled from the spec: [variable.Variable] is not in the source
    tree; it lifts a raw array into the computation graph and keeps it as
    [data]. *)
Record variable_Variable := { data : array }.

(** What an attribute of the target link can hold: a variable, a
    descendant link with attributes of its own, a raw array, or anything
    else. *)
Inductive attr :=
  | AttrVariable (v : variable_Variable)
  | AttrLink (dict : gmap string attr)
  | AttrArray (a : array)
  | AttrOther.

(** The first argument of [optimizer.update]: the target link itself or
    the function given to the constructor. *)
Inductive lossfun_t :=
  | LossTarget (target : gmap string attr)
  | LossFun (f : callable).

(** The optimizer is an external collaborator: a mutable object with a
    [target], whose [__dict__] is read here, and an [update] method. *)
Class Optimizer (Opt : Type) := {
  target : Opt → gmap string attr;
  update : lossfun_t → list variable_Variable → Opt → Opt
}.

(** Calls made on the optimizer, in order. *)
Inductive event :=
  | EvUpdate (lossfun : lossfun_t) (args : list variable_Variable).

Record world (Opt : Type) := World {
  w_opt : Opt;
  w_trace : list event
}.
Arguments World {Opt}.
Arguments w_opt {Opt}.
Arguments w_trace {Opt}.

(** [inputs]: a tuple of arrays, or a value that is not a tuple. *)
Inductive inputs_t :=
  | InTuple (items : list array)
  | InOther (a : array).

Inductive exn :=
  | NotImplementedError.

(** How a call ends: an exception, or the result dictionary. *)
Inductive outcome :=
  | Raise (e : exn)
  | Return (result : gmap string array).

(** *** [class Updater] *)

Definition Updater_call {Opt} (inputs : inputs_t) (w : world Opt)
    : outcome * world Opt :=
  (Raise NotImplementedError, w).

(** [serialize] is [pass]: it returns [None] and leaves the serializer
    and the optimizer as they are. *)
Definition Updater_serialize {S Opt} (serializer : S) (w : world Opt)
    : option exn * S * world Opt :=
  (None, serializer, w).

(** *** [class StandardUpdater(Updater)] *)

Record StandardUpdater := { _lossfun : option callable }.

Definition StandardUpdater_init (lossfun : option callable)
    : StandardUpdater :=
  {| _lossfun := lossfun |}.

(** [optimizer.update(lossfun, *in_vars)]. *)
Definition call_update `{Optimizer Opt} (lossfun : lossfun_t)
    (in_vars : list variable_Variable) (w : world Opt) : world Opt :=
  World (update lossfun in_vars (w_opt w))
        (w_trace w ++ [EvUpdate lossfun in_vars]).

(** The body of the loop of lines 88-92 for one item of [__dict__]. *)
Definition collect (name : string) (value : attr)
    (result : gmap string array) : gmap string array :=
  match value with
  | AttrVariable v =>
      let x := data v in
      if decide (size x = 1) then <[name := x]> result else result
  | _ => result
  end.

Definition StandardUpdater_call `{Optimizer Opt} (self : StandardUpdater)
    (inputs : inputs_t) (w : world Opt) : outcome * world Opt :=
  let inputs :=
    match inputs with
    | InTuple items => items
    | InOther a => [a]
    end in
  let in_vars := (λ a, {| data := a |}) <$> inputs in
  let lossfun :=
    match _lossfun self with
    | None => LossTarget (target (w_opt w))
    | Some f => LossFun f
    end in
  let w := call_update lossfun in_vars w in
  let result := map_fold collect ∅ (target (w_opt w)) in
  (Return result, w).

(** [StandardUpdater] inherits [serialize]. *)
Definition StandardUpdater_serialize {S Opt} (self : StandardUpdater)
    (serializer : S) (w : world Opt) : option exn * S * world Opt :=
  Updater_serialize serializer w.

(** The loop of lines 87-92 over the items of [__dict__] in the order
    [six.iteritems] yields them. *)
Definition collect_items (items : list (string * attr))
    : gmap string array :=
  foldl (λ result item, collect item.1 item.2 result) ∅ items.

End updater.

Arguments World {_ _ _}.
Arguments w_opt {_ _ _}.
Arguments w_trace {_ _ _}.

End Updater.

(** ** Integer instances, for concrete inputs *)

Module Instances.
Import Crf1d.

(** A stand-in for log-sum-exp on integers: the plain sum. *)
Definition lse_Z (l : list Z) : Z := foldr Z.add 0%Z l.

Definition crf1d_Z := crf1d (R:=Z) 0%Z Z.add Z.sub lse_Z.
Definition crf1d_viterbi_Z := crf1d_viterbi (R:=Z) 0%Z Z.add Z.leb.
Definition viterbi_step_Z := viterbi_step (R:=Z) 0%Z Z.add Z.leb.
Definition path_score_Z := path_score (R:=Z) 0%Z Z.add.
Definition spec_tensor_Z := spec_tensor (R:=Z) 0%Z Z.add.
Definition argmax_3d_Z := argmax_3d (R:=Z) 0%Z Z.leb.

(** Two labels, all transitions free. *)
Definition cost0 : list (list Z) := [[0; 0]; [0; 0]]%Z.

(** One item, three positions. *)
Definition xs3 : list (list (list Z)) :=
  [ [[0; 10]]; [[5; 0]]; [[0; 0]] ]%Z.

(** A second item, and labels for both. *)
Definition xs3' : list (list (list Z)) :=
  [ [[3; 4]]; [[1; 1]]; [[2; 7]] ]%Z.
Definition ys3 : list (list nat) := [[1]; [0]; [0]].
Definition ys3' : list (list nat) := [[0]; [1]; [1]].

(** All label sequences of length [T] over [L] labels. *)
Fixpoint label_seqs (L T : nat) : list (list nat) :=
  match T with
  | 0 => [[]]
  | S T' => l ← seq 0 L; (λ y, l :: y) <$> label_seqs L T'
  end.

(** An optimizer whose target is a model with a predictor, raw weights and
    a hidden state of two elements, and whose [update] leaves the loss of
    the step on the target as a variable of size 1. *)
Record toy_optimizer := ToyOptimizer {
  toy_target : gmap string (Updater.attr (array:=list Z))
}.

Definition toy_model : gmap string (Updater.attr (array:=list Z)) :=
  <["predictor" :=
      Updater.AttrLink
        {["accuracy" := Updater.AttrVariable {| Updater.data := [1%Z] |}]}]>
  (<["W" := Updater.AttrArray [3%Z]]>
  (<["h" := Updater.AttrVariable {| Updater.data := [1%Z; 2%Z] |}]> ∅)).

#[global] Instance toy_Optimizer
    : Updater.Optimizer (array:=list Z) (callable:=unit) toy_optimizer := {
  Updater.target := toy_target;
  Updater.update := λ _ _ o,
    ToyOptimizer
      (<["loss" := Updater.AttrVariable {| Updater.data := [7%Z] |}]>
         (toy_target o))
}.

End Instances.


Import Crf1d.

(** ** Facts about lists used below *)

Lemma chunks_fmap {A B} (f : A → B) (w n : nat) (l : list A) :
  chunks w n (f <$> l) = (λ r : list A, f <$> r) <$> chunks w n l.
Proof.
  revert l. induction n as [|n IH]; intros l; simpl; [done|].
  by rewrite fmap_take, <- fmap_drop, IH.
Qed.

Lemma chunks_1 {A} (l : list A) : chunks 1 (length l) l = (λ v, [v]) <$> l.
Proof.
  induction l as [|v l IH]; simpl; [done|].
  rewrite drop_0, take_0. by f_equal.
Qed.

Lemma chunks_join {A} (L : nat) (m : list (list A)) :
  Forall (λ r, length r = L) m → chunks L (length m) (mjoin m) = m.
Proof.
  induction 1 as [|r m Hr _ IH]; simpl; [done|].
  rewrite take_app_length', drop_app_length' by done. by rewrite IH.
Qed.

Lemma length_join_mat {A} (B L : nat) (m : list (list A)) :
  is_mat B L m → length (mjoin m) = B * L.
Proof.
  intros [<- Hrows]. induction Hrows as [|r m Hr _ IH]; simpl; [done|].
  rewrite length_app. lia.
Qed.

Lemma zip_with_zip_with_r {A B C D} (f : C → B → D) (g : A → B → C)
    (a : list A) (c : list B) :
  zip_with f (zip_with g a c) c = zip_with (λ x y, f (g x y) y) a c.
Proof.
  revert c. induction a as [|x a IH]; intros [|y c]; simpl; [done..|].
  by rewrite IH.
Qed.

Lemma zip_with_fmap_same {A B C D} (f : B → C → D) (g : A → B) (h : A → C)
    (l : list A) :
  zip_with f (g <$> l) (h <$> l) = (λ x, f (g x) (h x)) <$> l.
Proof. induction l as [|x l IH]; csimpl; [done|]. by rewrite IH. Qed.

Lemma mapM_cons {A B} (f : A → option B) (x : A) (l : list A) :
  mapM f (x :: l) = y ← f x; k ← mapM f l; Some (y :: k).
Proof. done. Qed.

Lemma zip_with_ext_in {A B C} (f g : A → B → C) (a : list A) (b : list B) :
  (∀ x y, x ∈ a → y ∈ b → f x y = g x y) → zip_with f a b = zip_with g a b.
Proof.
  revert b. induction a as [|x a IH]; intros [|y b] H; simpl; [done..|].
  rewrite H by constructor. f_equal. apply IH.
  intros x' y' Hx Hy. apply H; by constructor.
Qed.

(** ** The loop bodies, item by item *)

Section crf1d_steps.
Context {R : Type}.
Variable Rzero : R.
Variables Radd Rsub : R → R → R.
Variable Rleb : R → R → bool.
Variable lse : list R → R.

Local Abbreviation vec := (list R).
Local Abbreviation matrix := (list (list R)).
Local Abbreviation tensor3 := (list (list (list R))).

Lemma reshape_3d_mat (B L : nat) (a : matrix) :
  is_mat B L a →
  reshape_3d a B L = Some ((λ row : vec, (λ v, [v]) <$> row) <$> a).
Proof.
  intros Ha. unfold reshape_3d.
  pose proof (length_join_mat B L a Ha) as Hlen.
  case_decide; [|lia]. f_equal.
  rewrite <- Hlen, chunks_1, chunks_fmap. f_equal.
  destruct Ha as [<- Hrows]. by apply chunks_join.
Qed.

Lemma vadd_replicate (v : R) (crow : vec) :
  vadd Radd (replicate (length crow) v) crow = Radd v <$> crow.
Proof. unfold vadd. by rewrite zip_with_replicate_l. Qed.

Lemma madd_stretch (a : vec) (m : matrix) :
  madd Radd
    (zip_with (λ ai crow, stretch (length crow) ai) ((λ v, [v]) <$> a) m) m
  = pair_scores Radd m a.
Proof.
  unfold madd, pair_scores.
  rewrite zip_with_zip_with_r, zip_with_fmap_l.
  apply zip_with_ext_in. intros v crow _ _. apply vadd_replicate.
Qed.

Lemma tadd_broadcast (B : nat) (alpha : matrix) (c : ndarray) :
  length alpha = B →
  (let '(b_alpha, b_cost) :=
     broadcast ((λ row : vec, (λ v, [v]) <$> row) <$> alpha) c in
   tadd Radd b_alpha b_cost)
  = zip_with (λ a m, pair_scores Radd m a) alpha (blocks B c).
Proof.
  intros Hlen. destruct c as [m|t]; cbn [broadcast blocks]; unfold tadd.
  - rewrite zip_with_fmap_same, <- list_fmap_compose.
    rewrite zip_with_replicate_r by lia.
    apply list_fmap_ext. intros _ a _. simpl. apply madd_stretch.
  - rewrite zip_with_zip_with_r, zip_with_fmap_l.
    apply zip_with_ext_in. intros a m _ _. apply madd_stretch.
Qed.

Lemma forward_step_rows (B L : nat) (cost alpha x : matrix) :
  is_mat B L alpha →
  forward_step Rzero Radd lse B L cost alpha x
  = Some (madd Radd
            (logsumexp_3d Rzero lse (pair_scores Radd cost <$> alpha)) x).
Proof.
  intros Ha. unfold forward_step.
  rewrite (reshape_3d_mat B L) by done. simpl.
  pose proof (tadd_broadcast B alpha (Mat cost) (proj1 Ha)) as Ht.
  simpl in Ht. rewrite Ht.
  by rewrite zip_with_replicate_r by (destruct Ha; lia).
Qed.

Lemma viterbi_step_rows (B L : nat) (st : vstate) (x : matrix) :
  is_mat B L (v_alpha st) →
  let new := zip_with (λ a m, pair_scores Radd m a)
               (v_alpha st) (blocks B (v_cost st)) in
  viterbi_step Rzero Radd Rleb B L st x
  = Some (VState (madd Radd (max_3d Rzero Rleb new) x) (Ten new)
                 (v_max_inds st ++ [argmax_3d Rzero Rleb new])).
Proof.
  intros Ha new. unfold viterbi_step.
  rewrite (reshape_3d_mat B L) by done. simpl.
  pose proof (tadd_broadcast B (v_alpha st) (v_cost st) (proj1 Ha)) as Ht.
  destruct (broadcast _ _) as [b_alpha b_cost]. by rewrite Ht.
Qed.

(** *** Shapes *)

Lemma pair_scores_shape (n L : nat) (m : matrix) (a : vec) :
  is_mat n L m → length a = n → is_mat n L (pair_scores Radd m a).
Proof.
  intros [Hlen Hrows] Ha. unfold pair_scores. split.
  - rewrite length_zip_with. lia.
  - apply Forall_zip_with_snd with (P := λ r, length r = L); [|done].
    apply Forall_true. intros v crow Hc. by rewrite length_fmap.
Qed.

Lemma ncols_mat (L : nat) (m : matrix) : is_mat L L m → ncols m = L.
Proof.
  intros [Hlen Hrows]. destruct Hrows as [|r m Hr _]; simpl in *; done.
Qed.

Lemma length_columns (m : matrix) : length (columns Rzero m) = ncols m.
Proof. unfold columns. by rewrite length_fmap, length_seq. Qed.

Lemma columns_rows (m : matrix) :
  Forall (λ c, c ≠ [] ∧ length c = length m) (columns Rzero m).
Proof.
  unfold columns. apply Forall_fmap, Forall_forall. intros j Hj. simpl.
  unfold column. rewrite length_fmap. split; [|done].
  destruct m as [|r m]; [|done]. simpl in Hj. by apply elem_of_nil in Hj.
Qed.

Lemma argmax_scan_bound (l : vec) (best : R) (besti i : nat) :
  besti < i → argmax_scan Rleb best besti i l < i + length l.
Proof.
  revert best besti i. induction l as [|x l IH]; intros best besti i Hi;
    simpl; [lia|].
  destruct (Rleb x best).
  - specialize (IH best besti (S i)). lia.
  - specialize (IH x i (S i)). lia.
Qed.

Lemma argmax_list_bound (l : vec) :
  l ≠ [] → argmax_list Rleb l < length l.
Proof.
  destruct l as [|v l]; [done|]. intros _. simpl.
  pose proof (argmax_scan_bound l v 0 1). lia.
Qed.

Lemma reduce_axis1_shape {A} (f : vec → A) (B L : nat) (t : tensor3) :
  length t = B → Forall (is_mat L L) t → is_mat B L (reduce_axis1 Rzero f t).
Proof.
  intros Hlen Ht. unfold reduce_axis1. split.
  - by rewrite length_fmap.
  - apply Forall_fmap. eapply Forall_impl; [exact Ht|].
    intros m Hm. simpl. by rewrite length_fmap, length_columns, (ncols_mat L).
Qed.

Lemma argmax_3d_shape (B L : nat) (t : tensor3) :
  length t = B → Forall (is_mat L L) t → is_imat B L (argmax_3d Rzero Rleb t).
Proof.
  intros Hlen Ht. unfold argmax_3d, reduce_axis1. split.
  - by rewrite length_fmap.
  - apply Forall_fmap. eapply Forall_impl; [exact Ht|].
    intros m Hm. simpl. split.
    + by rewrite length_fmap, length_columns, (ncols_mat L).
    + apply Forall_fmap. eapply Forall_impl; [apply columns_rows|].
      intros c [Hne Hc]. simpl. destruct Hm as [Hm _].
      rewrite <- Hm, <- Hc. by apply argmax_list_bound.
Qed.

Lemma madd_shape (B L : nat) (a x : matrix) :
  is_mat B L a → is_mat B L x → is_mat B L (madd Radd a x).
Proof.
  intros [Ha Har] [Hx Hxr]. unfold madd, vadd. split.
  - rewrite length_zip_with. lia.
  - apply Forall_zip_with_fst with (P := λ r, length r = L); [done|].
    eapply Forall_impl; [exact Hxr|]. intros r Hr u Hu. simpl in *.
    rewrite length_zip_with. lia.
Qed.

Lemma new_blocks_shape (B L : nat) (alpha : matrix) (t : tensor3) :
  is_mat B L alpha → length t = B → Forall (is_mat L L) t →
  let new := zip_with (λ a m, pair_scores Radd m a) alpha t in
  length new = B ∧ Forall (is_mat L L) new.
Proof.
  intros [Ha Har] Ht Htr new. split.
  - unfold new. rewrite length_zip_with. lia.
  - apply Forall_zip_with_fst with (P := λ r, length r = L); [done|].
    eapply Forall_impl; [exact Htr|]. intros m Hm a Hlen. simpl.
    by apply pair_scores_shape.
Qed.

Lemma wf_state_init (B L : nat) (cost x0 : matrix) :
  is_mat L L cost → is_mat B L x0 → wf_state B L (VState x0 (Mat cost) []).
Proof.
  intros Hc Hx. repeat split; simpl; try apply Hx.
  - by rewrite length_replicate.
  - by apply Forall_replicate.
  - constructor.
Qed.

Lemma wf_state_step (B L : nat) (st : vstate) (x : matrix) :
  wf_state B L st → is_mat B L x →
  ∃ st', viterbi_step Rzero Radd Rleb B L st x = Some st'
         ∧ wf_state B L st'
         ∧ length (v_max_inds st') = S (length (v_max_inds st)).
Proof.
  intros (Ha & Hb & Hbr & Hm) Hx.
  rewrite (viterbi_step_rows B L) by done. eexists. split; [done|].
  destruct (new_blocks_shape B L (v_alpha st) (blocks B (v_cost st)))
    as [Hn Hnr]; [done..|].
  split; [|simpl; rewrite length_app; simpl; lia].
  unfold wf_state; simpl. split; [|split; [|split]].
  - apply madd_shape; [|done]. by apply reduce_axis1_shape.
  - done.
  - done.
  - apply Forall_app. split; [done|]. constructor; [|constructor].
    by apply argmax_3d_shape.
Qed.

Lemma wf_state_loop (B L : nat) (xs : list matrix) (st : vstate) :
  wf_state B L st → Forall (is_mat B L) xs →
  ∃ st', viterbi_loop Rzero Radd Rleb B L st xs = Some st'
         ∧ wf_state B L st'
         ∧ length (v_max_inds st') = length (v_max_inds st) + length xs.
Proof.
  intros Hst Hxs. revert st Hst.
  induction Hxs as [|x xs Hx _ IH]; intros st Hst; simpl.
  - exists st. split; [done|]. split; [done|lia].
  - destruct (wf_state_step B L st x Hst Hx) as (st1 & -> & Hst1 & Hlen).
    simpl. destruct (IH st1 Hst1) as (st' & -> & Hst' & Hlen').
    exists st'. split; [done|]. split; [done|lia].
Qed.

(** *** The backward trace *)

Lemma gather_zip_gen (pre m : list (list nat)) (inds : list nat) :
  length m = length inds →
  mapM (λ '(b, i), row ← (pre ++ m) !! b; row !! i)
       (zip (seq (length pre) (length inds)) inds)
  = mapM (λ '(row, i), row !! i) (zip m inds).
Proof.
  revert pre m. induction inds as [|i inds IH]; intros pre [|r m] Hlen;
    simpl in Hlen; try done.
  injection Hlen as Hlen.
  change (zip (r :: m) (i :: inds)) with ((r, i) :: zip m inds).
  change (zip (seq (length pre) (length (i :: inds))) (i :: inds))
    with ((length pre, i) :: zip (seq (S (length pre)) (length inds)) inds).
  rewrite !mapM_cons, list_lookup_middle by done.
  specialize (IH (pre ++ [r]) m Hlen).
  rewrite length_app, Nat.add_1_r, <- app_assoc in IH. simpl in IH.
  by rewrite IH.
Qed.

Lemma gather_zip (m : list (list nat)) (inds : list nat) :
  length m = length inds →
  gather m inds = mapM (λ '(row, i), row !! i) (zip m inds).
Proof. intros Hlen. exact (gather_zip_gen [] m inds Hlen). Qed.

Lemma gather_rows_ok (L : nat) (m : list (list nat)) (inds : list nat) :
  length m = length inds → Forall (is_labels L L) m →
  Forall (λ l, l < L) inds →
  ∃ inds', mapM (λ '(row, i), row !! i) (zip m inds) = Some inds'
           ∧ length inds' = length inds ∧ Forall (λ l, l < L) inds'.
Proof.
  revert inds. induction m as [|r m IH]; intros [|i inds] Hlen Hm Hi;
    simpl in Hlen; try done.
  { exists []. by repeat split. }
  injection Hlen as Hlen.
  apply Forall_cons in Hm as [[Hr Hrl] Hm].
  apply Forall_cons in Hi as [Hi Hinds].
  destruct (lookup_lt_is_Some_2 r i) as [k Hk]; [lia|].
  destruct (IH inds Hlen Hm Hinds) as (inds' & Hg & Hl & Hb).
  exists (k :: inds'). split.
  { change (zip (r :: m) (i :: inds)) with ((r, i) :: zip m inds).
    by rewrite mapM_cons, Hk, Hg. }
  simpl. split; [lia|]. constructor; [|done].
  exact (Forall_lookup_1 (λ l, l < L) r i k Hrl Hk).
Qed.

Lemma gather_ok (B L : nat) (m : list (list nat)) (inds : list nat) :
  is_imat B L m → is_labels B L inds →
  ∃ inds', gather m inds = Some inds' ∧ is_labels B L inds'.
Proof.
  intros [Hm Hmr] [Hi Hil].
  rewrite gather_zip by lia.
  destruct (gather_rows_ok L m inds) as (inds' & Hg & Hl & Hb);
    [lia|done..|].
  exists inds'. split; [done|]. split; [lia|done].
Qed.

Lemma backtrace_ok (B L : nat) (ms : list (list (list nat)))
    (inds : list nat) (path : list (list nat)) :
  Forall (is_imat B L) ms → is_labels B L inds →
  Forall (is_labels B L) path →
  ∃ path', backtrace ms inds path = Some path'
           ∧ length path' = length path + length ms
           ∧ Forall (is_labels B L) path'.
Proof.
  intros Hms. revert inds path.
  induction Hms as [|m ms Hm _ IH]; intros inds path Hi Hp; simpl.
  - exists path. split; [done|]. split; [lia|done].
  - destruct (gather_ok B L m inds Hm Hi) as (inds' & -> & Hi'). simpl.
    destruct (IH inds' (path ++ [inds'])) as (path' & -> & Hl & Hp');
      [done| |].
    { apply Forall_app. split; [done|]. by constructor. }
    exists path'. split; [done|]. split; [|done].
    rewrite Hl, length_app. simpl. lia.
Qed.

Lemma argmax_2d_ok (B L : nat) (alpha : matrix) :
  1 ≤ L → is_mat B L alpha → is_labels B L (argmax_2d Rleb alpha).
Proof.
  intros HL [Ha Har]. unfold argmax_2d. split.
  - by rewrite length_fmap.
  - apply Forall_fmap. eapply Forall_impl; [exact Har|].
    intros r Hr. simpl in *. rewrite <- Hr. apply argmax_list_bound.
    intros ->. simpl in Hr. lia.
Qed.

(** On inputs with the shapes of the data model the decoder returns, and
    its results have the shapes the spec gives them. *)
Lemma viterbi_ok (B L : nat) (cost : matrix) (xs : list matrix) :
  is_mat L L cost → 1 ≤ L → xs ≠ [] → Forall (is_mat B L) xs →
  ∃ alpha path,
    crf1d_viterbi Rzero Radd Rleb cost xs = Some (alpha, path)
    ∧ is_mat B L alpha
    ∧ length path = length xs
    ∧ Forall (is_labels B L) path.
Proof.
  intros Hc HL Hne Hxs. destruct xs as [|x0 rest]; [done|].
  apply Forall_cons in Hxs as [Hx0 Hrest].
  unfold crf1d_viterbi. simpl.
  destruct Hc as [Hcl Hcr]. destruct Hx0 as [Hxl Hxr].
  rewrite Hcl, Hxl.
  destruct (wf_state_loop B L rest (VState x0 (Mat cost) []))
    as (st & -> & (Ha & _ & _ & Hm) & Hlen); [|done|].
  { by apply wf_state_init. }
  simpl in *.
  pose proof (argmax_2d_ok B L (v_alpha st) HL Ha) as Hi.
  destruct (backtrace_ok B L (reverse (v_max_inds st))
              (argmax_2d Rleb (v_alpha st)) [argmax_2d Rleb (v_alpha st)])
    as (path & -> & Hl & Hp).
  { by apply Forall_reverse. }
  { done. }
  { by constructor. }
  simpl. exists (v_alpha st), (reverse path). split; [done|].
  split; [done|]. split.
  - rewrite length_reverse, Hl, length_reverse, Hlen. simpl. lia.
  - by apply Forall_reverse.
Qed.

Lemma backtrace_head (ms : list (list (list nat))) (inds p : list nat)
    (path path' : list (list nat)) :
  backtrace ms inds (p :: path) = Some path' → head path' = Some p.
Proof.
  revert inds path. induction ms as [|m ms IH]; intros inds path; simpl.
  - by intros [= <-].
  - destruct (gather m inds) as [inds'|]; simpl; [|done].
    apply (IH inds' (path ++ [inds'])).
Qed.

Lemma viterbi_last (cost : matrix) (xs : list matrix) (alpha : matrix)
    (path : list (list nat)) :
  crf1d_viterbi Rzero Radd Rleb cost xs = Some (alpha, path) →
  last path = Some (argmax_2d Rleb alpha).
Proof.
  unfold crf1d_viterbi. destruct (head xs) as [x0|]; simpl; [|done].
  destruct (viterbi_loop _ _ _ _ _ _ _) as [st|]; simpl; [|done].
  destruct (backtrace _ _ _) as [path0|] eqn:Hb; simpl; [|done].
  intros [= <- <-]. rewrite last_reverse. by eapply backtrace_head.
Qed.

(** *** [argmax]: first occurrence of the maximum *)

Section order.
Hypothesis Rleb_total : ∀ a b, Rleb a b = true ∨ Rleb b a = true.
Hypothesis Rleb_trans :
  ∀ a b c, Rleb a b = true → Rleb b c = true → Rleb a c = true.

Lemma argmax_scan_first_max (l pre : vec) (best : R) (besti : nat) :
  pre !! besti = Some best →
  (∀ i w, pre !! i = Some w → Rleb w best = true) →
  (∀ i w, i < besti → pre !! i = Some w → Rleb best w = false) →
  first_max Rleb (pre ++ l) (argmax_scan Rleb best besti (length pre) l).
Proof.
  revert pre best besti.
  induction l as [|x l IH]; intros pre best besti Hbest Hall Hfirst; simpl.
  - rewrite app_nil_r. by exists best.
  - replace (pre ++ x :: l) with ((pre ++ [x]) ++ l)
      by (by rewrite <- app_assoc).
    replace (S (length pre)) with (length (pre ++ [x]))
      by (rewrite length_app; simpl; lia).
    destruct (Rleb x best) eqn:Hx.
    + apply IH.
      * by apply lookup_app_l_Some.
      * intros i w [[_ Hw]|[_ <-]]%lookup_snoc_Some; [by eapply Hall|done].
      * intros i w Hi [[_ Hw]|[-> _]]%lookup_snoc_Some;
          [by eapply Hfirst|].
        apply lookup_lt_Some in Hbest. lia.
    + assert (Rleb best x = true) as Hbx.
      { destruct (Rleb_total best x) as [?|?]; [done|congruence]. }
      apply IH.
      * by apply list_lookup_middle.
      * intros i w [[_ Hw]|[_ <-]]%lookup_snoc_Some.
        -- eapply Rleb_trans; [by eapply Hall|done].
        -- by destruct (Rleb_total x x).
      * intros i w Hi [[_ Hw]|[-> _]]%lookup_snoc_Some; [|lia].
        destruct (Rleb x w) eqn:Hxw; [|done].
        rewrite (Rleb_trans x w best Hxw) in Hx; [done|by eapply Hall].
Qed.

Lemma argmax_list_first_max (l : vec) :
  l ≠ [] → first_max Rleb l (argmax_list Rleb l).
Proof.
  destruct l as [|v l]; [done|]. intros _. simpl.
  apply (argmax_scan_first_max l [v] v 0).
  - done.
  - intros [|i] w; simpl; [|done]. intros [= <-].
    by destruct (Rleb_total v v).
  - intros i w Hi. lia.
Qed.



End order.

(** C4: on a single-position input the loop and the backward trace run
    over empty sequences; [alpha] is [xs[0]] and the path is the argmax
    of [xs[0]] over the label axis. *)
Theorem C4_single_position (cost x0 : matrix) :
  crf1d_viterbi Rzero Radd Rleb cost [x0]
    = Some (x0, [argmax_2d Rleb x0])
  ∧ tail [x0] = []
  ∧ (∀ n_batch n_label st,
       viterbi_loop Rzero Radd Rleb n_batch n_label st (tail [x0]) = Some st)
  ∧ (∀ inds path,
       backtrace (reverse (v_max_inds (VState x0 (Mat cost) []))) inds path
       = Some path).
Proof. by repeat split. Qed.

(** C10: for an [(L, L)] cost matrix with [L >= 1] and a non-empty
    sequence of [T] emission tensors of shape [(B, L)], the decoder
    returns a path of exactly [T] vectors, each of length [B], with every
    entry a label index below [L]. *)
Theorem C10_path_shape (B L : nat) (cost : matrix) (xs : list matrix) :
  is_mat L L cost → 1 ≤ L → xs ≠ [] → Forall (is_mat B L) xs →
  ∃ alpha path,
    crf1d_viterbi Rzero Radd Rleb cost xs = Some (alpha, path)
    ∧ length path = length xs
    ∧ Forall (λ v, length v = B ∧ Forall (λ l, l < L) v) path.
Proof.
  intros Hc HL Hne Hxs.
  destruct (viterbi_ok B L cost xs Hc HL Hne Hxs)
    as (alpha & path & Hv & _ & Hlen & Hp).
  by exists alpha, path.
Qed.

End crf1d_steps.

(** ** The scorer against the recurrence of the spec *)

Section crf1d_scorer.
Context {R : Type}.
Variable Rzero : R.
Variables Radd Rsub : R → R → R.
Variable lse : list R → R.

Local Abbreviation vec := (list R).
Local Abbreviation matrix := (list (list R)).

Lemma get2_lookup (m : matrix) (b j : nat) (r : vec) (v : R) :
  m !! b = Some r → r !! j = Some v → get2 Rzero m b j = v.
Proof.
  intros Hr Hv. unfold get2.
  rewrite (nth_lookup_Some m b [] r Hr). by apply nth_lookup_Some.
Qed.

Lemma is_mat_lookup {A} (B L : nat) (m : list (list A)) (b : nat) :
  is_mat B L m → b < B → ∃ r, m !! b = Some r ∧ length r = L.
Proof.
  intros [Hlen Hrows] Hb.
  destruct (lookup_lt_is_Some_2 m b) as [r Hr]; [lia|].
  exists r. split; [done|]. exact (Forall_lookup_1 _ m b r Hrows Hr).
Qed.

Lemma list_eq_tabulate {A} (L : nat) (a : list A) (d : A) (g : nat → A) :
  length a = L → (∀ j, j < L → nth j a d = g j) → a = g <$> seq 0 L.
Proof.
  intros Hlen Hg. apply list_eq. intros j.
  rewrite list_lookup_fmap.
  destruct (decide (j < L)) as [Hj|Hj].
  - destruct (lookup_lt_is_Some_2 a j) as [v Hv]; [lia|].
    rewrite Hv, (proj2 (lookup_seq 0 L j j)) by done. simpl.
    by rewrite <- (Hg j Hj), (nth_lookup_Some a j d v Hv).
  - rewrite (lookup_ge_None_2 a j), (lookup_ge_None_2 (seq 0 L) j);
      [done|rewrite length_seq; lia|lia].
Qed.

Lemma column_pair_scores (L : nat) (cost : matrix) (a : vec) (j : nat) :
  is_mat L L cost → length a = L → j < L →
  column Rzero (pair_scores Radd cost a) j
  = (λ i, Radd (nth i a Rzero) (get2 Rzero cost i j)) <$> seq 0 L.
Proof.
  intros Hc Ha Hj. apply (list_eq_tabulate L _ Rzero).
  - unfold column, pair_scores. rewrite length_fmap, length_zip_with.
    destruct Hc. lia.
  - intros i Hi.
    destruct (is_mat_lookup L L cost i Hc Hi) as (crow & Hcrow & Hlen).
    destruct (lookup_lt_is_Some_2 a i) as [v Hv]; [lia|].
    destruct (lookup_lt_is_Some_2 crow j) as [c Hcj]; [lia|].
    rewrite (nth_lookup_Some a i Rzero v Hv).
    rewrite (get2_lookup cost i j crow c Hcrow Hcj).
    apply nth_lookup_Some. unfold column, pair_scores.
    rewrite list_lookup_fmap, lookup_zip_with, Hv, Hcrow. simpl.
    f_equal. apply nth_lookup_Some. by rewrite list_lookup_fmap, Hcj.
Qed.

Lemma forward_step_spec (B L : nat) (cost alpha x : matrix)
    (f : nat → nat → R) :
  is_mat L L cost → represents Rzero B L alpha f → is_mat B L x →
  ∃ alpha',
    forward_step Rzero Radd lse B L cost alpha x = Some alpha'
    ∧ represents Rzero B L alpha' (spec_alpha_step Rzero Radd lse cost L f x).
Proof.
  intros Hc [Ha Hf] Hx. rewrite (forward_step_rows _ _ _ B L) by done.
  eexists. split; [done|]. split.
  - apply madd_shape; [|done]. apply reduce_axis1_shape.
    + rewrite length_fmap. apply Ha.
    + apply Forall_fmap. destruct Ha as [_ Har].
      eapply Forall_impl; [exact Har|]. intros a Hlen. simpl.
      by apply pair_scores_shape.
  - intros b j Hb Hj.
    destruct (is_mat_lookup B L alpha b Ha Hb) as (a & Hab & Hal).
    destruct (is_mat_lookup B L x b Hx Hb) as (xb & Hxb & Hxl).
    destruct (lookup_lt_is_Some_2 xb j) as [xv Hxv]; [lia|].
    unfold spec_alpha_step. rewrite (get2_lookup x b j xb xv Hxb Hxv).
    eapply get2_lookup.
    + unfold madd, logsumexp_3d, reduce_axis1.
      rewrite lookup_zip_with, !list_lookup_fmap, Hab, Hxb. by simpl.
    + unfold vadd, columns.
      rewrite lookup_zip_with, !list_lookup_fmap, Hxv.
      assert (ncols (pair_scores Radd cost a) = L) as ->.
      { apply ncols_mat. by apply pair_scores_shape. }
      rewrite (proj2 (lookup_seq 0 L j j)) by done. simpl.
      rewrite (column_pair_scores L) by done.
      do 3 f_equal. apply list_fmap_ext. intros i ? Hi.
      apply lookup_seq in Hi as [-> Hi]. simpl. f_equal.
      rewrite <- (Hf b i Hb Hi). unfold get2.
      by rewrite (nth_lookup_Some alpha b [] a Hab).
Qed.

Lemma forward_loop_spec (B L : nat) (cost : matrix) (xs : list matrix)
    (alpha : matrix) (f : nat → nat → R) :
  is_mat L L cost → represents Rzero B L alpha f → Forall (is_mat B L) xs →
  ∃ alpha',
    forward_loop Rzero Radd lse B L cost alpha xs = Some alpha'
    ∧ represents Rzero B L alpha'
        (foldl (spec_alpha_step Rzero Radd lse cost L) f xs).
Proof.
  intros Hc Ha Hxs. revert alpha f Ha.
  induction Hxs as [|x xs Hx _ IH]; intros alpha f Ha; simpl.
  - by exists alpha.
  - destruct (forward_step_spec B L cost alpha x f Hc Ha Hx)
      as (alpha1 & -> & Ha1). simpl. by apply IH.
Qed.

(** *** The gold path score *)

Lemma reshape_flat_lookup (L : nat) (cost : matrix) (i j : nat) :
  is_mat L L cost → i < L → j < L →
  reshape_flat cost !! (i * L + j) = Some [get2 Rzero cost i j].
Proof.
  intros Hc Hi Hj. unfold reshape_flat.
  rewrite chunks_1, list_lookup_fmap.
  destruct (is_mat_lookup L L cost i Hc Hi) as (crow & Hcrow & Hlen).
  destruct (lookup_lt_is_Some_2 crow j) as [c Hcj]; [lia|].
  rewrite (get2_lookup cost i j crow c Hcrow Hcj).
  destruct Hc as [_ Hrows].
  by rewrite (proj2 (join_lookup_Some_same_length' L cost i j c Hrows Hj))
    by eauto.
Qed.

Lemma embed_id_flat (B L : nat) (cost : matrix) (y1 y2 : list nat) :
  is_mat L L cost → is_labels B L y1 → is_labels B L y2 →
  embed_id (flat_index L y1 y2) (reshape_flat cost)
  = Some ((λ v, [v]) <$> zip_with (get2 Rzero cost) y1 y2).
Proof.
  intros Hc [<- H1] [Hlen H2]. revert y2 Hlen H2.
  induction H1 as [|a y1 Ha _ IH]; intros [|b y2] Hlen H2;
    simpl in Hlen; try done.
  apply Forall_cons in H2 as [Hb H2]. unfold embed_id, flat_index in *.
  change (zip_with (λ a b, a * L + b) (a :: y1) (b :: y2))
    with ((a * L + b) :: zip_with (λ a b, a * L + b) y1 y2).
  rewrite mapM_cons, (reshape_flat_lookup L) by done. simpl.
  by rewrite IH by (done || lia).
Qed.

Lemma join_singletons {A} (l : list A) : mjoin ((λ v, [v]) <$> l) = l.
Proof. induction l as [|v l IH]; csimpl; [done|]. by rewrite IH. Qed.

Lemma reshape_1d_singletons (B : nat) (v : vec) :
  length v = B → reshape_1d ((λ v, [v]) <$> v) B = Some v.
Proof.
  intros Hlen. unfold reshape_1d. rewrite join_singletons.
  by case_decide.
Qed.

Lemma select_item_ok (B L : nat) (x : matrix) (y : list nat) :
  is_mat B L x → is_labels B L y →
  select_item x y = Some (zip_with (λ row l, nth l row Rzero) x y).
Proof.
  intros [Hx Hxr] [Hy Hyl]. unfold select_item.
  case_decide; [|lia]. clear Hx Hy. revert y H Hyl.
  induction Hxr as [|r x Hr _ IH]; intros [|l y] Hlen Hyl;
    simpl in Hlen; try done.
  apply Forall_cons in Hyl as [Hl Hyl].
  destruct (lookup_lt_is_Some_2 r l) as [v Hv]; [lia|].
  change (zip (r :: x) (l :: y)) with ((r, l) :: zip x y).
  rewrite mapM_cons, Hv. simpl. rewrite IH by (done || lia). simpl.
  by rewrite (nth_lookup_Some r l Rzero v Hv).
Qed.

Lemma score_rep_ext (B : nat) (s : score_t) (F F' : nat → list R) :
  (∀ b, b < B → F b = F' b) →
  score_rep Rzero Radd B s F → score_rep Rzero Radd B s F'.
Proof.
  intros HF. destruct s as [|v]; simpl.
  - intros H b Hb. rewrite <- HF by done. by apply H.
  - intros [Hlen H]. split; [done|]. intros b Hb.
    rewrite <- HF by done. by apply H.
Qed.

Lemma score_add_rep (B : nat) (s : score_t) (F : nat → list R) (v : vec) :
  score_rep Rzero Radd B s F → length v = B →
  score_rep Rzero Radd B (score_add Rzero Radd s v)
    (λ b, F b ++ [nth b v Rzero]).
Proof.
  intros Hs Hv. destruct s as [|u]; simpl in *.
  - split; [by rewrite length_fmap|]. intros b Hb.
    destruct (lookup_lt_is_Some_2 v b) as [w Hw]; [lia|].
    rewrite list_lookup_fmap, Hw, (Hs b Hb). simpl.
    by rewrite (nth_lookup_Some v b Rzero w Hw).
  - destruct Hs as [Hu Hs]. unfold vadd. split.
    + rewrite length_zip_with. lia.
    + intros b Hb.
      destruct (lookup_lt_is_Some_2 v b) as [w Hw]; [lia|].
      rewrite lookup_zip_with, (Hs b Hb), Hw. simpl.
      by rewrite foldl_snoc, (nth_lookup_Some v b Rzero w Hw).
Qed.

Lemma nth_zip_with_labels (B L : nat) (g : nat → nat → R)
    (y1 y2 : list nat) (b : nat) :
  is_labels B L y1 → is_labels B L y2 → b < B →
  nth b (zip_with g y1 y2) Rzero = g (geti y1 b) (geti y2 b).
Proof.
  intros [H1 _] [H2 _] Hb.
  destruct (lookup_lt_is_Some_2 y1 b) as [a Ha]; [lia|].
  destruct (lookup_lt_is_Some_2 y2 b) as [c Hc]; [lia|].
  unfold geti.
  rewrite (nth_lookup_Some y1 b 0 a Ha), (nth_lookup_Some y2 b 0 c Hc).
  apply nth_lookup_Some. by rewrite lookup_zip_with, Ha, Hc.
Qed.

Lemma transition_loop_spec (B L : nat) (cost : matrix)
    (pairs : list (list nat * list nat)) (s : score_t)
    (F : nat → list R) :
  is_mat L L cost →
  Forall (λ p, is_labels B L p.1 ∧ is_labels B L p.2) pairs →
  score_rep Rzero Radd B s F →
  ∃ s',
    transition_loop Rzero Radd B L (reshape_flat cost) s pairs = Some s'
    ∧ score_rep Rzero Radd B s'
        (λ b, F b ++ ((λ p, get2 Rzero cost (geti p.1 b) (geti p.2 b))
                        <$> pairs)).
Proof.
  intros Hc Hp. revert s F.
  induction Hp as [|[y1 y2] pairs [H1 H2] _ IH]; intros s F Hs; simpl.
  - exists s. split; [done|]. eapply score_rep_ext; [|exact Hs].
    intros b _. by rewrite app_nil_r.
  - simpl in H1, H2.
    rewrite (embed_id_flat B L) by done. simpl.
    rewrite reshape_1d_singletons
      by (rewrite length_zip_with; destruct H1, H2; lia).
    simpl.
    destruct (IH _ _ (score_add_rep B s F
                        (zip_with (get2 Rzero cost) y1 y2) Hs
                        ltac:(rewrite length_zip_with;
                              destruct H1, H2; lia)))
      as (s' & -> & Hs').
    exists s'. split; [done|]. eapply score_rep_ext; [|exact Hs'].
    intros b Hb. simpl. rewrite <- app_assoc. simpl. do 2 f_equal.
    by apply (nth_zip_with_labels B L).
Qed.

Lemma emission_loop_spec (B L : nat)
    (pairs : list (matrix * list nat)) (s : score_t) (F : nat → list R) :
  Forall (λ p, is_mat B L p.1 ∧ is_labels B L p.2) pairs →
  score_rep Rzero Radd B s F →
  ∃ s',
    emission_loop Rzero Radd s pairs = Some s'
    ∧ score_rep Rzero Radd B s'
        (λ b, F b ++ ((λ p, get2 Rzero p.1 b (geti p.2 b)) <$> pairs)).
Proof.
  intros Hp. revert s F.
  induction Hp as [|[x y] pairs [Hx Hy] _ IH]; intros s F Hs; simpl.
  - exists s. split; [done|]. eapply score_rep_ext; [|exact Hs].
    intros b _. by rewrite app_nil_r.
  - simpl in Hx, Hy.
    rewrite (select_item_ok B L) by done. simpl.
    destruct (IH _ _ (score_add_rep B s F
                        (zip_with (λ row l, nth l row Rzero) x y) Hs
                        ltac:(rewrite length_zip_with;
                              destruct Hx, Hy; lia)))
      as (s' & -> & Hs').
    exists s'. split; [done|]. eapply score_rep_ext; [|exact Hs'].
    intros b Hb. simpl. rewrite <- app_assoc. simpl. do 2 f_equal.
    destruct (is_mat_lookup B L x b Hx Hb) as (row & Hrow & Hlen).
    destruct Hy as [Hyl Hyr].
    destruct (lookup_lt_is_Some_2 y b) as [l Hl]; [lia|].
    unfold geti, get2.
    rewrite (nth_lookup_Some y b 0 l Hl), (nth_lookup_Some x b [] row Hrow).
    apply nth_lookup_Some. by rewrite lookup_zip_with, Hrow, Hl.
Qed.

(** *** Positions of the sequence *)

Lemma tabulate_nth {A} (l : list A) (d : A) :
  l = (λ t, nth t l d) <$> seq 0 (length l).
Proof. by apply (list_eq_tabulate (length l) l d). Qed.

Lemma zip_same_length {A B} (l : list A) (k : list B) (d : A) (e : B) :
  length l = length k →
  zip l k = (λ t, (nth t l d, nth t k e)) <$> seq 0 (length l).
Proof.
  intros Hlen. rewrite (tabulate_nth l d) at 1.
  rewrite (tabulate_nth k e) at 1. rewrite <- Hlen.
  apply (zip_with_fmap_same pair).
Qed.

Lemma zip_but_last_tail {A} (l : list A) (d : A) :
  zip (but_last l) (tail l)
  = (λ t, (nth t l d, nth (S t) l d)) <$> seq 0 (length l - 1).
Proof.
  assert (length (but_last l) = length l - 1) as Hb.
  { unfold but_last. rewrite length_take. lia. }
  assert (length (tail l) = length l - 1) as Ht.
  { destruct l; simpl; lia. }
  rewrite (zip_same_length _ _ d d) by lia. rewrite Hb.
  apply list_fmap_ext. intros i ? [-> Hi]%lookup_seq. simpl. f_equal.
  - unfold but_last. rewrite !nth_lookup, lookup_take_lt; [done|lia].
  - destruct l; [by destruct i|done].
Qed.

Lemma Forall_zip_both {A B} (P : A → Prop) (Q : B → Prop) (l : list A)
    (k : list B) :
  Forall P l → Forall Q k → Forall (λ p, P p.1 ∧ Q p.2) (zip l k).
Proof.
  intros Hl. revert k. induction Hl as [|x l Hx _ IH]; intros k Hk; simpl.
  - constructor.
  - destruct Hk as [|y k Hy Hk]; constructor; [done|]. by apply IH.
Qed.

(** On well-shaped inputs [crf1d] returns; entry [b] of its result is
    [logZ[b]] minus the left-to-right sum, started from the [0] of
    [score = 0], of the transition terms followed by the emission terms. *)
Lemma crf1d_terms (B L : nat) (cost : matrix) (xs : list matrix)
    (ys : list (list nat)) :
  is_mat L L cost → xs ≠ [] → Forall (is_mat B L) xs →
  length ys = length xs → Forall (is_labels B L) ys →
  ∃ loss,
    crf1d Rzero Radd Rsub lse cost xs ys = Some loss
    ∧ length loss = B
    ∧ ∀ b, b < B →
        loss !! b
        = Some (Rsub (spec_logZ Rzero Radd lse cost L xs b)
                     (foldl Radd Rzero
                        (transition_terms Rzero cost ys b
                         ++ emission_terms Rzero xs ys b))).
Proof.
  intros Hc Hne Hxs Hlen Hys. destruct xs as [|x0 rest]; [done|].
  pose proof Hxs as Hxs'. apply Forall_cons in Hxs' as [Hx0 Hrest].
  assert (Forall (λ p, is_mat B L p.1 ∧ is_labels B L p.2)
            (zip (x0 :: rest) ys)) as Hp2 by (by apply Forall_zip_both).
  unfold crf1d. remember (zip (x0 :: rest) ys) as ps2 eqn:Hps2. simpl.
  destruct Hc as [Hcl Hcr]. destruct Hx0 as [Hxl Hxr].
  rewrite Hcl, Hxl.
  destruct (forward_loop_spec B L cost rest x0 (get2 Rzero x0))
    as (alpha & -> & [Ha Hf]); [done|by repeat split|done|].
  simpl.
  destruct (transition_loop_spec B L cost (zip (but_last ys) (tail ys))
              PyZero (λ _, []))
    as (s1 & -> & Hs1); [done| |done|].
  { apply Forall_zip_both.
    - unfold but_last. by apply Forall_take.
    - destruct Hys; [constructor|done]. }
  simpl.
  destruct (emission_loop_spec B L _ s1 _ Hp2 Hs1) as (s2 & -> & Hs2).
  subst ps2.
  simpl. eexists. split; [done|].
  assert (∀ b, b < B →
            logsumexp_2d lse alpha !! b
            = Some (spec_logZ Rzero Radd lse cost L (x0 :: rest) b))
    as Hlogz.
  { intros b Hb.
    destruct (is_mat_lookup B L alpha b Ha Hb) as (a & Hab & Hal).
    unfold logsumexp_2d, spec_logZ, spec_alpha.
    rewrite list_lookup_fmap, Hab. simpl. do 2 f_equal.
    apply (list_eq_tabulate L a Rzero); [done|]. intros j Hj.
    rewrite <- (Hf b j Hb Hj). unfold get2.
    by rewrite (nth_lookup_Some alpha b [] a Hab). }
  assert (length (logsumexp_2d lse alpha) = B) as Hll.
  { unfold logsumexp_2d. rewrite length_fmap. apply Ha. }
  destruct s2 as [|v]; simpl in Hs2 |- *.
  - split; [by rewrite length_fmap|]. intros b Hb.
    specialize (Hs2 b Hb). apply app_eq_nil in Hs2 as [_ Hs2].
    apply fmap_nil_inv in Hs2. destruct ys; simpl in *; done.
  - destruct Hs2 as [Hv Hs2]. unfold vsub. split.
    { rewrite length_zip_with. lia. }
    intros b Hb.
    rewrite lookup_zip_with, (Hlogz b Hb), (Hs2 b Hb). simpl.
    do 2 f_equal. unfold transition_terms, emission_terms.
    rewrite (zip_but_last_tail ys []).
    change (match ys with [] => [] | y :: l => (x0, y) :: zip rest l end)
      with (zip (x0 :: rest) ys).
    rewrite (zip_same_length (x0 :: rest) ys [] []) by done.
    by rewrite <- !list_fmap_compose.
Qed.

Section monoid.
Hypothesis Radd_assoc : ∀ a b c, Radd a (Radd b c) = Radd (Radd a b) c.
Hypothesis Radd_0_l : ∀ a, Radd Rzero a = a.
Hypothesis Radd_0_r : ∀ a, Radd a Rzero = a.

Lemma foldl_Radd (a : R) (l : vec) :
  foldl Radd a l = Radd a (Rsum Rzero Radd l).
Proof.
  unfold Rsum. revert a. induction l as [|x l IH]; intros a; simpl.
  - by rewrite Radd_0_r.
  - by rewrite (IH (Radd a x)), (IH (Radd Rzero x)), Radd_0_l, Radd_assoc.
Qed.

Lemma Rsum_app (l k : vec) :
  foldl Radd Rzero (l ++ k)
  = Radd (Rsum Rzero Radd l) (Rsum Rzero Radd k).
Proof. by rewrite foldl_app, foldl_Radd. Qed.

(** C1: for a cost matrix of shape [(L, L)], a non-empty sequence of
    [T] emission tensors of shape [(B, L)] and [T] label vectors of
    shape [(B,)] with entries in [[0, L)], [crf1d] returns a vector of
    length [B] whose entry [b] is [logZ[b] - score[b]], with [logZ] the
    log-sum-exp of the forward recurrence started from [xs[0]] and
    [score] the sum of the transition costs along the labels plus the
    sum of the emissions at the labels. *)
Theorem C1_crf1d_negative_log_likelihood (B L : nat) (cost : matrix)
    (xs : list matrix) (ys : list (list nat)) :
  is_mat L L cost → xs ≠ [] → Forall (is_mat B L) xs →
  length ys = length xs → Forall (is_labels B L) ys →
  ∃ loss,
    crf1d Rzero Radd Rsub lse cost xs ys = Some loss
    ∧ length loss = B
    ∧ ∀ b, b < B →
        loss !! b
        = Some (Rsub (spec_logZ Rzero Radd lse cost L xs b)
                     (spec_score Rzero Radd cost xs ys b)).
Proof.
  intros Hc Hne Hxs Hlen Hys.
  destruct (crf1d_terms B L cost xs ys Hc Hne Hxs Hlen Hys)
    as (loss & Hl & Hlen' & Hb).
  exists loss. split; [done|]. split; [done|]. intros b Hlt.
  rewrite (Hb b Hlt). unfold spec_score. by rewrite Rsum_app.
Qed.

End monoid.

End crf1d_scorer.

(** ** Batch items are scored and decoded independently *)

Section crf1d_batch.
Context {R : Type}.
Variable Rzero : R.
Variables Radd Rsub : R → R → R.
Variable Rleb : R → R → bool.
Variable lse : list R → R.

Local Abbreviation vec := (list R).
Local Abbreviation matrix := (list (list R)).
Local Abbreviation tensor3 := (list (list (list R))).

Lemma Forall2_nth {A B} (P : A → B → Prop) (l : list A) (k : list B)
    (d : A) (e : B) (t : nat) :
  Forall2 P l k → P d e → P (nth t l d) (nth t k e).
Proof.
  intros H Hd. revert t. induction H as [|x y l k Hxy _ IH]; intros [|t];
    simpl; auto.
Qed.

Lemma get2_nil (b j : nat) : get2 Rzero [] b j = Rzero.
Proof. unfold get2. destruct b, j; done. Qed.

(** What the spec's quantities for item [b] of one input and item [b']
    of another depend on. *)
Lemma spec_alpha_item (cost : matrix) (L : nat) (xs xs' : list matrix)
    (b b' : nat) :
  Forall2 (λ x x', ∀ j, get2 Rzero x b j = get2 Rzero x' b' j) xs xs' →
  ∀ j, spec_alpha Rzero Radd lse cost L xs b j
       = spec_alpha Rzero Radd lse cost L xs' b' j.
Proof.
  intros H. unfold spec_alpha.
  assert (∀ j, get2 Rzero (nth 0 xs []) b j = get2 Rzero (nth 0 xs' []) b' j)
    as H0.
  { intros j. apply (Forall2_nth (λ x x', ∀ j, get2 Rzero x b j
                                            = get2 Rzero x' b' j));
      [done|]. intros i. by rewrite !get2_nil. }
  assert (Forall2 (λ x x', ∀ j, get2 Rzero x b j = get2 Rzero x' b' j)
            (tail xs) (tail xs')) as Ht.
  { destruct H; [constructor|done]. }
  revert H0. generalize (get2 Rzero (nth 0 xs [])).
  generalize (get2 Rzero (nth 0 xs' [])).
  induction Ht as [|x x' l l' Hx _ IH]; intros f' f Hf j; simpl; [done|].
  apply IH. intros i. unfold spec_alpha_step. rewrite Hx. do 2 f_equal.
  apply list_fmap_ext. intros ? k _. by rewrite Hf.
Qed.

Lemma spec_item (cost : matrix) (L : nat) (xs xs' : list matrix)
    (ys ys' : list (list nat)) (b b' : nat) :
  Forall2 (λ x x', ∀ j, get2 Rzero x b j = get2 Rzero x' b' j) xs xs' →
  Forall2 (λ y y', geti y b = geti y' b') ys ys' →
  spec_logZ Rzero Radd lse cost L xs b
  = spec_logZ Rzero Radd lse cost L xs' b'
  ∧ transition_terms Rzero cost ys b = transition_terms Rzero cost ys' b'
  ∧ emission_terms Rzero xs ys b = emission_terms Rzero xs' ys' b'.
Proof.
  intros Hx Hy.
  assert (∀ t, geti (nth t ys []) b = geti (nth t ys' []) b') as Hyt.
  { intros t. apply (Forall2_nth (λ y y', geti y b = geti y' b')); [done|].
    unfold geti. by destruct b, b'. }
  assert (∀ t j, get2 Rzero (nth t xs []) b j
                 = get2 Rzero (nth t xs' []) b' j) as Hxt.
  { intros t.
    apply (Forall2_nth (λ x x', ∀ j, get2 Rzero x b j
                                     = get2 Rzero x' b' j)); [done|].
    intros i. by rewrite !get2_nil. }
  split; [|split].
  - unfold spec_logZ. f_equal. apply list_fmap_ext. intros ? j _.
    by apply spec_alpha_item.
  - unfold transition_terms. rewrite (Forall2_length _ _ _ Hy).
    apply list_fmap_ext. intros ? t _. by rewrite !Hyt.
  - unfold emission_terms. rewrite (Forall2_length _ _ _ Hx).
    apply list_fmap_ext. intros ? t _. by rewrite Hyt, Hxt.
Qed.

(** Item [b] of the first part, and item [BA + b] for the second. *)
Lemma stack_item_l {A} (P : list A → list A → Prop) (BA : nat)
    (lA lB : list (list A)) :
  length lA = length lB →
  Forall (λ a, length a = BA) lA →
  (∀ a c, length a = BA → P (a ++ c) a) →
  Forall2 P (stack lA lB) lA.
Proof.
  intros Hlen HA HP. revert lB Hlen.
  induction HA as [|a lA Ha _ IH]; intros [|c lB] Hlen; simpl in Hlen;
    try done; try (by constructor).
  constructor; [by apply HP|]. apply IH. lia.
Qed.

Lemma is_mat_lengths {A} (B L : nat) (l : list (list (list A))) :
  Forall (is_mat B L) l → Forall (λ a, length a = B) l.
Proof. intros H. eapply Forall_impl; [exact H|]. by intros a [? _]. Qed.

Lemma is_labels_lengths (B L : nat) (l : list (list nat)) :
  Forall (is_labels B L) l → Forall (λ a, length a = B) l.
Proof. intros H. eapply Forall_impl; [exact H|]. by intros a [? _]. Qed.

Lemma get2_app_l (a c : matrix) (b j : nat) :
  b < length a → get2 Rzero (a ++ c) b j = get2 Rzero a b j.
Proof. intros Hb. unfold get2. by rewrite app_nth1. Qed.

Lemma get2_app_r (a c : matrix) (b j : nat) :
  get2 Rzero (a ++ c) (length a + b) j = get2 Rzero c b j.
Proof. unfold get2. by rewrite app_nth2_plus. Qed.

Lemma geti_app_l (a c : list nat) (b : nat) :
  b < length a → geti (a ++ c) b = geti a b.
Proof. intros Hb. unfold geti. by rewrite app_nth1. Qed.

Lemma geti_app_r (a c : list nat) (b : nat) :
  geti (a ++ c) (length a + b) = geti c b.
Proof. unfold geti. by rewrite app_nth2_plus. Qed.

Lemma stack_item_r {A} (P : list A → list A → Prop) (BA : nat)
    (lA lB : list (list A)) :
  length lA = length lB →
  Forall (λ a, length a = BA) lA →
  (∀ a c, length a = BA → P (a ++ c) c) →
  Forall2 P (stack lA lB) lB.
Proof.
  intros Hlen HA HP. revert lB Hlen.
  induction HA as [|a lA Ha _ IH]; intros [|c lB] Hlen; simpl in Hlen;
    try done; try (by constructor).
  constructor; [by apply HP|]. apply IH. lia.
Qed.

Lemma stack_shape {A} (BA BB L : nat) (lA lB : list (list (list A))) :
  length lA = length lB →
  Forall (is_mat BA L) lA → Forall (is_mat BB L) lB →
  Forall (is_mat (BA + BB) L) (stack lA lB).
Proof.
  intros Hlen HA. revert lB Hlen.
  induction HA as [|a lA [Ha Har] _ IH]; intros [|c lB] Hlen HB;
    simpl in Hlen; try done; try (by constructor).
  apply Forall_cons in HB as [[Hc Hcr] HB]. constructor.
  - split; [rewrite length_app; lia|]. by apply Forall_app.
  - apply IH; [lia|done].
Qed.

Lemma stack_labels (BA BB L : nat) (lA lB : list (list nat)) :
  length lA = length lB →
  Forall (is_labels BA L) lA → Forall (is_labels BB L) lB →
  Forall (is_labels (BA + BB) L) (stack lA lB).
Proof.
  intros Hlen HA. revert lB Hlen.
  induction HA as [|a lA [Ha Har] _ IH]; intros [|c lB] Hlen HB;
    simpl in Hlen; try done; try (by constructor).
  apply Forall_cons in HB as [[Hc Hcr] HB]. constructor.
  - split; [rewrite length_app; lia|]. by apply Forall_app.
  - apply IH; [lia|done].
Qed.

Lemma length_stack {A} (lA lB : list (list A)) :
  length lA = length lB → length (stack lA lB) = length lA.
Proof. intros Hlen. unfold stack. rewrite length_zip_with. lia. Qed.

(** The losses of a stacked batch are the losses of its parts. *)
Lemma crf1d_stack (BA BB L : nat) (cost : matrix) (xsA xsB : list matrix)
    (ysA ysB : list (list nat)) :
  is_mat L L cost → xsA ≠ [] → length xsA = length xsB →
  Forall (is_mat BA L) xsA → Forall (is_mat BB L) xsB →
  length ysA = length xsA → length ysB = length xsB →
  Forall (is_labels BA L) ysA → Forall (is_labels BB L) ysB →
  ∃ lossA lossB,
    crf1d Rzero Radd Rsub lse cost xsA ysA = Some lossA
    ∧ crf1d Rzero Radd Rsub lse cost xsB ysB = Some lossB
    ∧ length lossA = BA ∧ length lossB = BB
    ∧ crf1d Rzero Radd Rsub lse cost (stack xsA xsB) (stack ysA ysB)
      = Some (lossA ++ lossB).
Proof.
  intros Hc Hne Hlen HxA HxB HlA HlB HyA HyB.
  destruct (crf1d_terms Rzero Radd Rsub lse BA L cost xsA ysA)
    as (lossA & HA & HlenA & HbA); [done..|].
  destruct (crf1d_terms Rzero Radd Rsub lse BB L cost xsB ysB)
    as (lossB & HB & HlenB & HbB); [done| |done..|].
  { intros ->. by destruct xsA. }
  destruct (crf1d_terms Rzero Radd Rsub lse (BA + BB) L cost
              (stack xsA xsB) (stack ysA ysB))
    as (loss & HS & HlenS & HbS).
  { done. }
  { intros Hnil. apply (f_equal length) in Hnil.
    rewrite length_stack in Hnil by done. by destruct xsA. }
  { by apply stack_shape. }
  { rewrite !length_stack; lia. }
  { apply stack_labels; [lia|done..]. }
  exists lossA, lossB. repeat (split; [done|]).
  rewrite HS. f_equal. apply list_eq. intros b.
  pose proof (is_mat_lengths _ _ _ HxA) as HxAl.
  pose proof (is_labels_lengths _ _ _ HyA) as HyAl.
  destruct (decide (b < BA)) as [Hb|Hb].
  - rewrite lookup_app_l by lia. rewrite (HbS b) by lia.
    rewrite (HbA b Hb).
    destruct (spec_item cost L (stack xsA xsB) xsA (stack ysA ysB) ysA b b)
      as (-> & -> & ->); [| |done].
    + apply (stack_item_l _ BA); [done..|]. intros a c Ha j.
      apply get2_app_l. lia.
    + apply (stack_item_l _ BA); [lia|done|]. intros a c Ha.
      apply geti_app_l. lia.
  - rewrite lookup_app_r by lia. rewrite HlenA.
    destruct (decide (b - BA < BB)) as [Hb'|Hb'].
    + rewrite (HbS b) by lia. rewrite (HbB (b - BA) Hb').
      destruct (spec_item cost L (stack xsA xsB) xsB (stack ysA ysB) ysB
                  b (b - BA)) as (-> & -> & ->); [| |done].
      * apply (stack_item_r _ BA); [done..|]. intros a c Ha j.
        replace b with (length a + (b - BA)) at 1 by lia.
        apply get2_app_r.
      * apply (stack_item_r _ BA); [lia|done|]. intros a c Ha.
        replace b with (length a + (b - BA)) at 1 by lia.
        apply geti_app_r.
    + rewrite !lookup_ge_None_2; [done|lia..].
Qed.

(** *** The decoder on a stacked batch *)

Lemma reverse_zip_with {A B C} (f : A → B → C) (l : list A) (k : list B) :
  length l = length k →
  reverse (zip_with f l k) = zip_with f (reverse l) (reverse k).
Proof.
  revert k. induction l as [|x l IH]; intros [|y k] Hlen; simpl in Hlen;
    try done.
  simpl. rewrite !reverse_cons, IH by lia.
  rewrite zip_with_app by (rewrite !length_reverse; lia). done.
Qed.

Lemma mapM_app_Some {A B} (f : A → option B) (l k : list A)
    (a c : list B) :
  mapM f l = Some a → mapM f k = Some c → mapM f (l ++ k) = Some (a ++ c).
Proof.
  rewrite !mapM_Some. apply Forall2_app.
Qed.

Lemma is_mat_app {A} (BA BB L : nat) (a c : list (list A)) :
  is_mat BA L a → is_mat BB L c → is_mat (BA + BB) L (a ++ c).
Proof.
  intros [Ha Har] [Hc Hcr]. split; [rewrite length_app; lia|].
  by apply Forall_app.
Qed.

Lemma gather_app (BA BB L : nat) (mA mB : list (list nat))
    (iA iB gA gB : list nat) :
  is_imat BA L mA → is_labels BA L iA → is_labels BB L iB →
  is_imat BB L mB →
  gather mA iA = Some gA → gather mB iB = Some gB →
  gather (mA ++ mB) (iA ++ iB) = Some (gA ++ gB).
Proof.
  intros [HmA _] [HiA _] [HiB _] [HmB _].
  rewrite !gather_zip by (rewrite ?length_app; lia).
  intros HA HB. rewrite (zip_with_app pair) by lia.
  by apply mapM_app_Some.
Qed.

Lemma backtrace_stack (BA BB L : nat) (msA msB : list (list (list nat)))
    (iA iB : list nat) (pathA pathB : list (list nat)) :
  length msA = length msB →
  Forall (is_imat BA L) msA → Forall (is_imat BB L) msB →
  is_labels BA L iA → is_labels BB L iB →
  length pathA = length pathB →
  ∃ pA pB,
    backtrace msA iA pathA = Some pA
    ∧ backtrace msB iB pathB = Some pB
    ∧ length pA = length pB
    ∧ backtrace (stack msA msB) (iA ++ iB) (stack pathA pathB)
      = Some (stack pA pB).
Proof.
  intros Hlen HA. revert msB iA iB pathA pathB Hlen.
  induction HA as [|mA msA HmA _ IH];
    intros [|mB msB] iA iB pathA pathB Hlen HB HiA HiB Hp;
    simpl in Hlen; try done.
  { exists pathA, pathB. by repeat split. }
  apply Forall_cons in HB as [HmB HB]. simpl.
  destruct (gather_ok BA L mA iA HmA HiA) as (gA & HgA & HgAl).
  destruct (gather_ok BB L mB iB HmB HiB) as (gB & HgB & HgBl).
  rewrite HgA, HgB, (gather_app BA BB L mA mB iA iB gA gB) by done.
  simpl.
  destruct (IH msB gA gB (pathA ++ [gA]) (pathB ++ [gB]))
    as (pA & pB & HpA & HpB & Hl & Hs); [lia|done..| |].
  { rewrite !length_app. simpl. lia. }
  exists pA, pB. repeat (split; [done|]).
  rewrite <- Hs. f_equal. unfold stack. by rewrite zip_with_app.
Qed.

Lemma merged_step (BA BB L : nat) (stA stB st : vstate) (xA xB : matrix) :
  wf_state BA L stA → wf_state BB L stB → merged BA BB stA stB st →
  is_mat BA L xA → is_mat BB L xB →
  ∃ stA' stB' st',
    viterbi_step Rzero Radd Rleb BA L stA xA = Some stA'
    ∧ viterbi_step Rzero Radd Rleb BB L stB xB = Some stB'
    ∧ viterbi_step Rzero Radd Rleb (BA + BB) L st (xA ++ xB) = Some st'
    ∧ wf_state BA L stA' ∧ wf_state BB L stB'
    ∧ merged BA BB stA' stB' st'.
Proof.
  intros HwA HwB (Halpha & Hblocks & Hmi & Hlen) HxA HxB.
  destruct (wf_state_step Rzero Radd Rleb BA L stA xA HwA HxA)
    as (stA' & HsA & HwA' & _).
  destruct (wf_state_step Rzero Radd Rleb BB L stB xB HwB HxB)
    as (stB' & HsB & HwB' & _).
  exists stA', stB'. rewrite HsA, HsB.
  destruct HwA as (HaA & HbA & _ & _). destruct HwB as (HaB & HbB & _ & _).
  rewrite (viterbi_step_rows _ _ _ BA L) in HsA by done.
  rewrite (viterbi_step_rows _ _ _ BB L) in HsB by done.
  injection HsA as <-. injection HsB as <-.
  rewrite (viterbi_step_rows _ _ _ (BA + BB) L)
    by (rewrite Halpha; by apply is_mat_app).
  rewrite Halpha, Hblocks.
  rewrite zip_with_app by (destruct HaA; lia).
  eexists. repeat (split; [done|]). unfold merged. simpl.
  unfold max_3d, argmax_3d, reduce_axis1, madd.
  rewrite !fmap_app. split; [|split; [done|split]].
  - rewrite zip_with_app; [done|].
    rewrite length_fmap, length_zip_with. destruct HaA, HxA. lia.
  - rewrite Hmi. unfold stack. by rewrite zip_with_app.
  - rewrite !length_app. simpl. lia.
Qed.

Lemma merged_loop (BA BB L : nat) (xsA xsB : list matrix)
    (stA stB st : vstate) :
  length xsA = length xsB →
  Forall (is_mat BA L) xsA → Forall (is_mat BB L) xsB →
  wf_state BA L stA → wf_state BB L stB → merged BA BB stA stB st →
  ∃ stA' stB' st',
    viterbi_loop Rzero Radd Rleb BA L stA xsA = Some stA'
    ∧ viterbi_loop Rzero Radd Rleb BB L stB xsB = Some stB'
    ∧ viterbi_loop Rzero Radd Rleb (BA + BB) L st (stack xsA xsB)
      = Some st'
    ∧ wf_state BA L stA' ∧ wf_state BB L stB'
    ∧ merged BA BB stA' stB' st'.
Proof.
  intros Hlen HA. revert xsB stA stB st Hlen.
  induction HA as [|xA xsA HxA _ IH];
    intros [|xB xsB] stA stB st Hlen HB HwA HwB Hm; simpl in Hlen;
    try done.
  { exists stA, stB, st. repeat (split; [done|]). done. }
  apply Forall_cons in HB as [HxB HB]. simpl.
  destruct (merged_step BA BB L stA stB st xA xB)
    as (stA1 & stB1 & st1 & -> & -> & -> & HwA1 & HwB1 & Hm1); [done..|].
  simpl. apply IH; [lia|done..].
Qed.

(** The decoder on a stacked batch returns the stacked results. *)
Lemma viterbi_stack (BA BB L : nat) (cost : matrix)
    (xsA xsB : list matrix) :
  is_mat L L cost → 1 ≤ L → xsA ≠ [] → length xsA = length xsB →
  Forall (is_mat BA L) xsA → Forall (is_mat BB L) xsB →
  ∃ aA aB pA pB,
    crf1d_viterbi Rzero Radd Rleb cost xsA = Some (aA, pA)
    ∧ crf1d_viterbi Rzero Radd Rleb cost xsB = Some (aB, pB)
    ∧ is_mat BA L aA ∧ is_mat BB L aB
    ∧ crf1d_viterbi Rzero Radd Rleb cost (stack xsA xsB)
      = Some (aA ++ aB, stack pA pB).
Proof.
  intros Hc HL Hne Hlen HA HB.
  destruct xsA as [|xA restA]; [done|].
  destruct xsB as [|xB restB]; [done|].
  apply Forall_cons in HA as [HxA HA]. apply Forall_cons in HB as [HxB HB].
  unfold crf1d_viterbi. simpl. rewrite length_app.
  destruct Hc as [Hcl Hcr]. rewrite Hcl.
  destruct HxA as [HxAl HxAr]. destruct HxB as [HxBl HxBr].
  rewrite HxAl, HxBl.
  destruct (merged_loop BA BB L restA restB
              (VState xA (Mat cost) []) (VState xB (Mat cost) [])
              (VState (xA ++ xB) (Mat cost) []))
    as (stA & stB & st & HlA & HlB & Hl & HwA & HwB & Hm).
  { simpl in Hlen. lia. }
  { done. }
  { done. }
  { by apply wf_state_init. }
  { by apply wf_state_init. }
  { repeat split; simpl. by rewrite replicate_add. }
  rewrite HlA, HlB, Hl. simpl.
  destruct Hm as (Halpha & _ & Hmi & Hmil).
  destruct HwA as (HaA & _ & _ & HmA). destruct HwB as (HaB & _ & _ & HmB).
  rewrite Halpha, Hmi. unfold argmax_2d. rewrite fmap_app.
  unfold stack. rewrite reverse_zip_with by done.
  destruct (backtrace_stack BA BB L (reverse (v_max_inds stA))
              (reverse (v_max_inds stB))
              (argmax_list Rleb <$> v_alpha stA)
              (argmax_list Rleb <$> v_alpha stB)
              [argmax_list Rleb <$> v_alpha stA]
              [argmax_list Rleb <$> v_alpha stB])
    as (pA & pB & HpA & HpB & Hpl & Hp).
  { rewrite !length_reverse. done. }
  { by apply Forall_reverse. }
  { by apply Forall_reverse. }
  { by apply argmax_2d_ok. }
  { by apply argmax_2d_ok. }
  { done. }
  unfold stack in Hp. simpl in Hp. rewrite HpA, HpB, Hp. simpl.
  eexists _, _, _, _. repeat (split; [done|]).
  by rewrite reverse_zip_with.
Qed.

(** C6: stacking two single-item inputs into a batch of size 2 gives, for
    each item, the loss [crf1d] gives it alone, and the [alpha] row and
    the decoded path [crf1d_viterbi] gives it alone. *)
Theorem C6_batch_independence (L : nat) (cost : matrix)
    (xsA xsB : list matrix) (ysA ysB : list (list nat)) :
  is_mat L L cost → xsA ≠ [] → length xsA = length xsB →
  Forall (is_mat 1 L) xsA → Forall (is_mat 1 L) xsB →
  length ysA = length xsA → length ysB = length xsB →
  Forall (is_labels 1 L) ysA → Forall (is_labels 1 L) ysB →
  (∃ lA lB,
     crf1d Rzero Radd Rsub lse cost xsA ysA = Some [lA]
     ∧ crf1d Rzero Radd Rsub lse cost xsB ysB = Some [lB]
     ∧ crf1d Rzero Radd Rsub lse cost (stack xsA xsB) (stack ysA ysB)
       = Some [lA; lB])
  ∧ (∃ aA aB pA pB,
       crf1d_viterbi Rzero Radd Rleb cost xsA = Some ([aA], pA)
       ∧ crf1d_viterbi Rzero Radd Rleb cost xsB = Some ([aB], pB)
       ∧ crf1d_viterbi Rzero Radd Rleb cost (stack xsA xsB)
         = Some ([aA; aB], stack pA pB)).
Proof.
  intros Hc Hne Hlen HxA HxB HlA HlB HyA HyB.
  assert (1 ≤ L) as HL.
  { destruct xsA as [|x xsA]; [done|]. destruct ysA as [|y ysA]; [done|].
    apply Forall_cons in HyA as [[Hy Hyl] _].
    destruct y as [|l y]; [done|]. apply Forall_cons in Hyl as [Hl _]. lia. }
  split.
  - destruct (crf1d_stack 1 1 L cost xsA xsB ysA ysB)
      as (lossA & lossB & HA & HB & HlenA & HlenB & HS); [done..|].
    destruct lossA as [|lA [|]]; try done.
    destruct lossB as [|lB [|]]; try done.
    by exists lA, lB.
  - destruct (viterbi_stack 1 1 L cost xsA xsB)
      as (aA & aB & pA & pB & HA & HB & [HaA _] & [HaB _] & HS); [done..|].
    destruct aA as [|rA [|]]; try done.
    destruct aB as [|rB [|]]; try done.
    by exists rA, rB, pA, pB.
Qed.

End crf1d_batch.

(** ** The decoder on concrete inputs *)

Section crf1d_concrete.
Import Instances.

(** C2, evaluated on one item with three positions.  The first step
    forms its tensor from [alpha] and the transition matrix; line 41 then
    overwrites [cost], so the second step adds [alpha] to the tensor of
    the first step instead: the tensor, and the backpointers taken from
    it, differ from those of [alpha + cost]. *)
Theorem C2_cost_overwritten_in_loop :
  let st0 := VState [[0; 10]]%Z (Mat cost0) [] in
  ∃ st1 st2,
    viterbi_step_Z 1 2 st0 [[5; 0]]%Z = Some st1
    ∧ viterbi_step_Z 1 2 st1 [[0; 0]]%Z = Some st2
    ∧ v_cost st1 = Ten (spec_tensor_Z 1 2 (v_alpha st0) cost0)
    ∧ v_cost st2 = Ten [[[15; 15]; [20; 20]]]%Z
    ∧ spec_tensor_Z 1 2 (v_alpha st1) cost0 = [[[15; 15]; [10; 10]]]%Z
    ∧ v_max_inds st2 = [[[1; 1]]; [[1; 1]]]
    ∧ argmax_3d_Z (spec_tensor_Z 1 2 (v_alpha st1) cost0) = [[0; 0]].
Proof. eexists _, _. by repeat split. Qed.

(** C3, evaluated on the same input: the decoded label sequence is
    [1, 1, 0] with score 10, while [1, 0, 0] scores 15, the maximum over
    all eight label sequences. *)
Theorem C3_viterbi_path_not_optimal :
  crf1d_viterbi_Z cost0 xs3 = Some ([[20; 20]]%Z, [[1]; [1]; [0]])
  ∧ item_path [[1]; [1]; [0]] 0 = [1; 1; 0]
  ∧ path_score_Z cost0 xs3 [1; 1; 0] 0 = 10%Z
  ∧ path_score_Z cost0 xs3 [1; 0; 0] 0 = 15%Z
  ∧ Forall (λ y, (path_score_Z cost0 xs3 y 0 ≤ 15)%Z) (label_seqs 2 3).
Proof.
  repeat split; try reflexivity.
  vm_compute. repeat constructor; discriminate.
Qed.

End crf1d_concrete.

(** ** The theorems above at concrete inputs *)

Section crf1d_witnesses.
Import Instances.

Local Ltac shapes :=
  repeat first [ done | split | constructor ].

Lemma Z_leb_total (a b : Z) : (a <=? b)%Z = true ∨ (b <=? a)%Z = true.
Proof. rewrite !Z.leb_le. lia. Qed.

Lemma Z_leb_trans (a b c : Z) :
  (a <=? b)%Z = true → (b <=? c)%Z = true → (a <=? c)%Z = true.
Proof. rewrite !Z.leb_le. lia. Qed.

Lemma C1_witness :
  ∃ loss,
    crf1d_Z cost0 xs3 ys3 = Some loss
    ∧ length loss = 1
    ∧ ∀ b, b < 1 →
        loss !! b
        = Some (spec_logZ 0 Z.add lse_Z cost0 2 xs3 b
                - spec_score 0 Z.add cost0 xs3 ys3 b)%Z.
Proof.
  apply (C1_crf1d_negative_log_likelihood 0%Z Z.add Z.sub lse_Z
           Z.add_assoc Z.add_0_l Z.add_0_r 1 2 cost0 xs3 ys3); shapes.
Defined.


Lemma C6_witness :
  (∃ lA lB,
     crf1d_Z cost0 xs3 ys3 = Some [lA]
     ∧ crf1d_Z cost0 xs3' ys3' = Some [lB]
     ∧ crf1d_Z cost0 (stack xs3 xs3') (stack ys3 ys3') = Some [lA; lB])
  ∧ (∃ aA aB pA pB,
       crf1d_viterbi_Z cost0 xs3 = Some ([aA], pA)
       ∧ crf1d_viterbi_Z cost0 xs3' = Some ([aB], pB)
       ∧ crf1d_viterbi_Z cost0 (stack xs3 xs3')
         = Some ([aA; aB], stack pA pB)).
Proof.
  apply (C6_batch_independence 0%Z Z.add Z.sub Z.leb lse_Z 2 cost0
           xs3 xs3' ys3 ys3'); shapes.
Defined.

Lemma C10_witness :
  ∃ alpha path,
    crf1d_viterbi_Z cost0 xs3 = Some (alpha, path)
    ∧ length path = 3
    ∧ Forall (λ v, length v = 1 ∧ Forall (λ l, l < 2) v) path.
Proof.
  apply (C10_path_shape 0%Z Z.add Z.leb 1 2 cost0 xs3); shapes.
Defined.

End crf1d_witnesses.

(** ** The updaters *)

Section updater_facts.
Import Updater.
Context {array callable : Type}.
Variable size : array → nat.
Context `{Optimizer array callable Opt}.

Local Abbreviation wrap :=
  (fmap (M:=list) (λ a : array, {| data := a |})).

(** C7: [StandardUpdater.__call__] turns a non-tuple [inputs] into a
    one-element tuple, wraps every element in a [Variable], passes the
    loss function given to the constructor, or else the optimizer's
    target, and calls [optimizer.update] exactly once with the wrapped
    inputs. *)
Theorem C7_standard_updater_update_call (w : world Opt) :
  (∀ f items,
     (StandardUpdater_call size (StandardUpdater_init (Some f))
        (InTuple items) w).2
     = World (update (LossFun f) (wrap items) (w_opt w))
             (w_trace w ++ [EvUpdate (LossFun f) (wrap items)]))
  ∧ (∀ f a,
       (StandardUpdater_call size (StandardUpdater_init (Some f))
          (InOther a) w).2
       = World (update (LossFun f) [{| data := a |}] (w_opt w))
               (w_trace w ++ [EvUpdate (LossFun f) [{| data := a |}]]))
  ∧ (∀ items,
       (StandardUpdater_call size (StandardUpdater_init None)
          (InTuple items) w).2
       = World (update (LossTarget (target (w_opt w))) (wrap items)
                  (w_opt w))
               (w_trace w
                ++ [EvUpdate (LossTarget (target (w_opt w))) (wrap items)]))
  ∧ (∀ a,
       (StandardUpdater_call size (StandardUpdater_init None)
          (InOther a) w).2
       = World (update (LossTarget (target (w_opt w))) [{| data := a |}]
                  (w_opt w))
               (w_trace w
                ++ [EvUpdate (LossTarget (target (w_opt w)))
                      [{| data := a |}]])).
Proof. by repeat split. Qed.

Lemma collect_lookup (m : gmap string (attr (array:=array)))
    (name : string) (x : array) :
  map_fold (collect size) ∅ m !! name = Some x
  ↔ ∃ v, m !! name = Some (AttrVariable v) ∧ data v = x ∧ size x = 1.
Proof.
  revert name x.
  apply (map_fold_weak_ind
           (λ r m, ∀ name x,
              r !! name = Some x
              ↔ ∃ v, m !! name = Some (AttrVariable v)
                     ∧ data v = x ∧ size x = 1)).
  - intros name x. rewrite lookup_empty. split; [done|].
    intros (v & Hv & _). by rewrite lookup_empty in Hv.
  - intros i value m' r Hi IH name x.
    destruct (decide (i = name)) as [->|Hne].
    + rewrite lookup_insert_eq.
      assert (r !! name = None) as Hr.
      { destruct (r !! name) as [y|] eqn:Hy; [|done].
        apply IH in Hy as (v & Hv & _). congruence. }
      destruct value as [v|d|a|]; simpl;
        try (rewrite Hr; split; [done|]; by intros (v' & [=] & _)).
      case_decide as Hsz.
      * rewrite lookup_insert_eq. split.
        -- intros [= <-]. by exists v.
        -- by intros (v' & [= <-] & <- & _).
      * rewrite Hr. split; [done|].
        intros (v' & [= <-] & <- & Hx). done.
    + rewrite lookup_insert_ne by done. rewrite <- IH.
      destruct value as [v|d|a|]; simpl; try done.
      case_decide; [|done]. by rewrite lookup_insert_ne.
Qed.

(** C8: the mapping [StandardUpdater.__call__] returns has an entry for
    exactly the attributes held directly in the target's [__dict__] after
    the update that are variables whose array has size 1, under the
    attribute's name and holding that array; attributes of descendant
    links and all other attributes give no entry. *)
Theorem C8_result_dictionary (self : StandardUpdater (callable:=callable))
    (inputs : inputs_t) (w : world Opt) :
  ∃ result,
    (StandardUpdater_call size self inputs w).1 = Return result
    ∧ let dict := target (w_opt (StandardUpdater_call size self inputs w).2)
      in
      (∀ name x,
         result !! name = Some x
         ↔ ∃ v, dict !! name = Some (AttrVariable v)
                ∧ data v = x ∧ size x = 1)
      ∧ (∀ name sub, dict !! name = Some (AttrLink sub) →
           result !! name = None)
      ∧ (∀ name v, dict !! name = Some (AttrVariable v) →
           size (data v) ≠ 1 → result !! name = None).
Proof.
  eexists. split; [done|]. simpl. split; [|split].
  - intros name x. apply collect_lookup.
  - intros name sub Hsub.
    destruct (map_fold _ _ _ !! name) as [x|] eqn:Hx; [|done].
    apply collect_lookup in Hx as (v & Hv & _). congruence.
  - intros name v Hv Hsz.
    destruct (map_fold _ _ _ !! name) as [x|] eqn:Hx; [|done].
    apply collect_lookup in Hx as (v' & Hv' & <- & Hx). congruence.
Qed.

(** C9: the base [Updater.__call__] raises [NotImplementedError] for
    every input, returns no result and leaves the state as it was;
    [Updater.serialize] succeeds for every serializer and changes
    nothing. *)
Theorem C9_base_updater (inputs : inputs_t) (w : world Opt) :
  Updater_call (callable:=callable) inputs w = (Raise NotImplementedError, w)
  ∧ (∀ result w',
       Updater_call (callable:=callable) inputs w ≠ (Return result, w'))
  ∧ (∀ S (serializer : S),
       Updater_serialize (array:=array) (callable:=callable) serializer w
       = (None, serializer, w)).
Proof. by repeat split. Qed.

End updater_facts.

(** The sixth testable property of the spec, on a concrete model: only
    ["loss"] is reported; the hidden state of two elements, the raw weights
    and the accuracy held by the predictor are not. *)
Example standard_updater_reports_loss :
  (Updater.StandardUpdater_call (length (A:=Z))
     (Updater.StandardUpdater_init None) (Updater.InOther [0%Z])
     (Updater.World (Instances.ToyOptimizer Instances.toy_model) [])).1
  = Updater.Return {["loss" := [7%Z]]}.
Proof. by vm_compute. Qed.

(** ** More on the decoder: what each step computes and how the path is
    traced back *)

Section crf1d_decoder.
Context {R : Type}.
Variable Rzero : R.
Variable Radd : R → R → R.
Variable Rleb : R → R → bool.

Local Abbreviation vec := (list R).
Local Abbreviation matrix := (list (list R)).
Local Abbreviation tensor3 := (list (list (list R))).

Lemma get3_lookup (t : tensor3) (b i j : nat) (m : matrix) (r : vec)
    (v : R) :
  t !! b = Some m → m !! i = Some r → r !! j = Some v →
  get3 Rzero t b i j = v.
Proof.
  intros Hm Hr Hv. unfold get3.
  rewrite (nth_lookup_Some t b [] m Hm), (nth_lookup_Some m i [] r Hr).
  by apply nth_lookup_Some.
Qed.

(** *** The backward trace *)

Lemma backtrace_follows (ms consumed : list (list (list nat)))
    (acc path : list (list nat)) (inds : list nat) :
  last acc = Some inds →
  follows (reverse consumed) (reverse acc) →
  backtrace ms inds acc = Some path →
  follows (reverse ms ++ reverse consumed) (reverse path).
Proof.
  revert consumed acc inds.
  induction ms as [|m ms IH]; intros consumed acc inds Hlast Hf; simpl.
  - by intros [= <-].
  - destruct (gather m inds) as [inds'|] eqn:Hg; simpl; [|done].
    intros Hb. rewrite reverse_cons, <- app_assoc. simpl.
    rewrite <- (reverse_snoc consumed m).
    apply (IH (consumed ++ [m]) (acc ++ [inds']) inds'); [|  |done].
    + apply last_snoc.
    + rewrite !reverse_snoc.
      apply last_Some in Hlast as [acc0 ->].
      rewrite reverse_snoc in Hf |- *. by constructor.
Qed.

Lemma viterbi_path_structure (cost : matrix) (xs : list matrix)
    (alpha : matrix) (path : list (list nat)) :
  crf1d_viterbi Rzero Radd Rleb cost xs = Some (alpha, path) →
  ∃ x0 st,
    head xs = Some x0
    ∧ viterbi_loop Rzero Radd Rleb (length x0) (length cost)
        (VState x0 (Mat cost) []) (tail xs) = Some st
    ∧ alpha = v_alpha st
    ∧ follows (v_max_inds st) path
    ∧ last path = Some (argmax_2d Rleb alpha).
Proof.
  intros Hv. pose proof (viterbi_last _ _ _ _ _ _ _ Hv) as Hlast.
  unfold crf1d_viterbi in Hv.
  destruct (head xs) as [x0|]; simpl in Hv; [|done].
  destruct (viterbi_loop _ _ _ _ _ _ _) as [st|] eqn:Hst; simpl in Hv;
    [|done].
  destruct (backtrace _ _ _) as [path0|] eqn:Hb; simpl in Hv; [|done].
  injection Hv as <- <-. exists x0, st. repeat (split; [done|]).
  split; [|done].
  apply (backtrace_follows _ []) in Hb; [|done|constructor].
  by rewrite reverse_involutive, app_nil_r in Hb.
Qed.

Lemma follows_length (ms : list (list (list nat))) (path : list (list nat)) :
  follows ms path → length path = S (length ms).
Proof. induction 1; simpl; [done|]. simpl in *. lia. Qed.

Lemma follows_lookup (ms : list (list (list nat))) (path : list (list nat))
    (t : nat) (m : list (list nat)) (p q : list nat) :
  follows ms path →
  ms !! t = Some m → path !! t = Some p → path !! S t = Some q →
  gather m q = Some p.
Proof.
  intros Hf. revert t. induction Hf as [p0|m0 ms p0 q0 rest Hg Hf IH];
    intros [|t] Hm Hp Hq; simplify_eq/=; [done|].
  by apply (IH t).
Qed.

(** X1: the path [crf1d_viterbi] returns is the backward trace of the
    backpointer tables of its forward pass.  It has one vector more than
    there are tables, its last vector is the argmax of the returned [alpha]
    over the label axis, and the vector at position [t] is the table of
    step [t] gathered at the vector of position [t + 1]. *)
Theorem X1_path_follows_backpointers (cost : matrix) (xs : list matrix)
    (alpha : matrix) (path : list (list nat)) :
  crf1d_viterbi Rzero Radd Rleb cost xs = Some (alpha, path) →
  ∃ x0 st,
    head xs = Some x0
    ∧ viterbi_loop Rzero Radd Rleb (length x0) (length cost)
        (VState x0 (Mat cost) []) (tail xs) = Some st
    ∧ alpha = v_alpha st
    ∧ length path = S (length (v_max_inds st))
    ∧ last path = Some (argmax_2d Rleb alpha)
    ∧ ∀ t m p q,
        v_max_inds st !! t = Some m → path !! t = Some p →
        path !! S t = Some q → gather m q = Some p.
Proof.
  intros Hv.
  destruct (viterbi_path_structure cost xs alpha path Hv)
    as (x0 & st & Hx0 & Hst & Ha & Hf & Hl).
  exists x0, st. repeat (split; [done|]).
  split; [by apply follows_length|]. split; [done|].
  intros t m p q. by apply follows_lookup.
Qed.

(** *** One step of the forward pass, entry by entry *)

Lemma blocks_entry (B : nat) (c : ndarray) (b i j : nat) (m : matrix) :
  blocks B c !! b = Some m →
  get2 Rzero m i j = cost_entry Rzero c b i j.
Proof.
  destruct c as [m0|t]; simpl.
  - by intros [-> _]%lookup_replicate.
  - intros Hm. unfold get3, get2. by rewrite (nth_lookup_Some t b [] m Hm).
Qed.

Lemma column_tabulate (L : nat) (m : matrix) (j : nat) :
  length m = L →
  column Rzero m j = (λ i, nth j (nth i m []) Rzero) <$> seq 0 L.
Proof.
  intros Hlen. apply (list_eq_tabulate L _ Rzero).
  - unfold column. by rewrite length_fmap.
  - intros i Hi. destruct (lookup_lt_is_Some_2 m i) as [r Hr]; [lia|].
    rewrite (nth_lookup_Some m i [] r Hr). apply nth_lookup_Some.
    unfold column. by rewrite list_lookup_fmap, Hr.
Qed.

Lemma argmax_scan_max (l pre : vec) (best : R) (besti : nat) :
  pre !! besti = Some best →
  (pre ++ l) !! argmax_scan Rleb best besti (length pre) l
  = Some (foldl (Rmax Rleb) best l).
Proof.
  revert pre best besti.
  induction l as [|x l IH]; intros pre best besti Hbest; simpl.
  - rewrite app_nil_r. done.
  - replace (pre ++ x :: l) with ((pre ++ [x]) ++ l)
      by (by rewrite <- app_assoc).
    replace (S (length pre)) with (length (pre ++ [x]))
      by (rewrite length_app; simpl; lia).
    unfold Rmax at 2. destruct (Rleb x best).
    + apply IH. by apply lookup_app_l_Some.
    + apply IH. by apply list_lookup_middle.
Qed.

Lemma argmax_list_max (l : vec) :
  l ≠ [] → l !! argmax_list Rleb l = Some (max_list Rzero Rleb l).
Proof.
  destruct l as [|v l]; [done|]. intros _. simpl.
  by apply (argmax_scan_max l [v] v 0).
Qed.

Lemma viterbi_step_entries (B L : nat) (st : vstate) (x : matrix) :
  wf_state B L st → is_mat B L x →
  ∃ t' mi alpha',
    viterbi_step Rzero Radd Rleb B L st x
    = Some (VState alpha' (Ten t') (v_max_inds st ++ [mi]))
    ∧ (∀ b i j, b < B → i < L → j < L →
         get3 Rzero t' b i j
         = Radd (get2 Rzero (v_alpha st) b i)
                (cost_entry Rzero (v_cost st) b i j))
    ∧ (∀ b j, b < B → j < L →
         ∃ row k,
           mi !! b = Some row ∧ row !! j = Some k ∧ k < L
           ∧ k = argmax_list Rleb ((λ i, get3 Rzero t' b i j) <$> seq 0 L)
           ∧ get2 Rzero alpha' b j
             = Radd (get3 Rzero t' b k j) (get2 Rzero x b j)).
Proof.
  intros (Ha & Hb & Hbr & Hm) Hx.
  rewrite (viterbi_step_rows _ _ _ B L) by done. simpl.
  set (new := zip_with (λ a m, pair_scores Radd m a) (v_alpha st)
                (blocks B (v_cost st))).
  destruct (new_blocks_shape Radd B L (v_alpha st) (blocks B (v_cost st)))
    as [Hn Hnr]; [done..|]. fold new in Hn, Hnr.
  eexists _, _, _. split; [done|].
  assert (∀ b, b < B → ∃ a m nb,
            v_alpha st !! b = Some a ∧ length a = L
            ∧ blocks B (v_cost st) !! b = Some m ∧ is_mat L L m
            ∧ new !! b = Some nb ∧ nb = pair_scores Radd m a
            ∧ is_mat L L nb) as Hrow.
  { intros b Hlt.
    destruct (is_mat_lookup B L (v_alpha st) b Ha Hlt) as (a & Hab & Hal).
    destruct (lookup_lt_is_Some_2 (blocks B (v_cost st)) b) as [m Hmb];
      [lia|].
    pose proof (Forall_lookup_1 _ _ _ _ Hbr Hmb) as Hms.
    exists a, m, (pair_scores Radd m a). repeat (split; [done|]).
    split; [|split; [done|by apply pair_scores_shape]].
    unfold new. by rewrite lookup_zip_with, Hab, Hmb. }
  assert (∀ b i j, b < B → i < L → j < L →
            get3 Rzero new b i j
            = Radd (get2 Rzero (v_alpha st) b i)
                   (cost_entry Rzero (v_cost st) b i j)) as Hentry.
  { intros b i j Hlt Hi Hj.
    destruct (Hrow b Hlt) as (a & m & nb & Hab & Hal & Hmb & Hms & Hnb & -> & _).
    destruct (is_mat_lookup L L m i Hms Hi) as (mrow & Hmrow & Hml).
    destruct (lookup_lt_is_Some_2 a i) as [ai Hai]; [lia|].
    destruct (lookup_lt_is_Some_2 mrow j) as [mij Hmij]; [lia|].
    rewrite <- (blocks_entry B _ b i j m Hmb).
    rewrite (get2_lookup Rzero m i j mrow mij Hmrow Hmij).
    unfold get2 at 1.
    rewrite (nth_lookup_Some _ b [] a Hab), (nth_lookup_Some a i Rzero ai Hai).
    apply (get3_lookup new b i j (pair_scores Radd m a) (Radd ai <$> mrow));
      [done| |].
    - unfold pair_scores. by rewrite lookup_zip_with, Hai, Hmrow.
    - by rewrite list_lookup_fmap, Hmij. }
  split; [done|]. intros b j Hlt Hj.
  destruct (Hrow b Hlt) as (a & m & nb & Hab & Hal & Hmb & Hms & Hnb & Hnbe & Hnbs).
  destruct (is_mat_lookup B L x b Hx Hlt) as (xb & Hxb & Hxl).
  destruct (lookup_lt_is_Some_2 xb j) as [xv Hxv]; [lia|].
  assert (column Rzero nb j = (λ i, get3 Rzero new b i j) <$> seq 0 L) as Hcol.
  { rewrite (column_tabulate L) by apply Hnbs.
    apply list_fmap_ext. intros ? i _. unfold get3.
    by rewrite (nth_lookup_Some new b [] nb Hnb). }
  assert (column Rzero nb j ≠ []) as Hne.
  { rewrite Hcol. destruct L; [lia|done]. }
  assert (columns Rzero nb !! j = Some (column Rzero nb j)) as Hcj.
  { unfold columns. rewrite list_lookup_fmap, (ncols_mat L) by done.
    by rewrite (proj2 (lookup_seq 0 L j j)). }
  exists (argmax_list Rleb <$> columns Rzero nb),
    (argmax_list Rleb (column Rzero nb j)).
  split.
  { unfold argmax_3d, reduce_axis1. by rewrite list_lookup_fmap, Hnb. }
  split.
  { by rewrite list_lookup_fmap, Hcj. }
  assert (argmax_list Rleb (column Rzero nb j) < L) as Hk.
  { pose proof (argmax_list_bound Rleb _ Hne) as Hbd.
    assert (length (column Rzero nb j) = L) as Hcl
      by (by rewrite Hcol, length_fmap, length_seq).
    lia. }
  split; [done|]. split; [by rewrite Hcol|].
  rewrite (get2_lookup Rzero x b j xb xv Hxb Hxv).
  apply (get2_lookup Rzero _ b j
           (vadd Radd (max_list Rzero Rleb <$> columns Rzero nb) xb)).
  - unfold madd, max_3d, reduce_axis1.
    by rewrite lookup_zip_with, list_lookup_fmap, Hnb, Hxb.
  - unfold vadd. rewrite lookup_zip_with, list_lookup_fmap, Hcj, Hxv. simpl.
    do 2 f_equal. pose proof (argmax_list_max _ Hne) as Hmax.
    remember (argmax_list Rleb (column Rzero nb j)) as k eqn:Hkeq.
    assert (column Rzero nb j !! k = Some (get3 Rzero new b k j)) as Hck.
    { rewrite Hcol, list_lookup_fmap.
      by rewrite (proj2 (lookup_seq 0 L k k)). }
    congruence.
Qed.

(** X2: on a state with the shapes of the data model, one iteration of the
    loop of [crf1d_viterbi] leaves in [cost] the tensor whose entry
    [[b][i][j]] is [alpha[b][i]] plus the entry of what [cost] held before
    the iteration: the transition matrix in the first iteration, the tensor
    of the previous iteration in every later one. *)
Theorem X2_step_adds_alpha_to_current_cost (B L : nat) (st : vstate)
    (x : matrix) :
  wf_state B L st → is_mat B L x →
  ∃ st' t',
    viterbi_step Rzero Radd Rleb B L st x = Some st'
    ∧ v_cost st' = Ten t'
    ∧ ∀ b i j, b < B → i < L → j < L →
        get3 Rzero t' b i j
        = Radd (get2 Rzero (v_alpha st) b i)
               match v_cost st with
               | Mat m => get2 Rzero m i j
               | Ten t => get3 Rzero t b i j
               end.
Proof.
  intros Hst Hx.
  destruct (viterbi_step_entries B L st x Hst Hx)
    as (t' & mi & alpha' & Hs & Ht & _).
  eexists _, t'. split; [exact Hs|]. split; [done|].
  intros b i j Hb Hi Hj. rewrite (Ht b i j Hb Hi Hj).
  by destruct (v_cost st).
Qed.

(** X3: in one iteration of the loop of [crf1d_viterbi], the maximum
    added to [x] is attained at the recorded backpointer: with [k] the
    backpointer of item [b] and next label [j], [k] is a label below [L] and
    the new [alpha[b][j]] is the tensor's entry [[b][k][j]] plus [x[b][j]]. *)
Theorem X3_alpha_is_attained_at_backpointer (B L : nat) (st : vstate)
    (x : matrix) :
  wf_state B L st → is_mat B L x →
  ∃ st' t' mi,
    viterbi_step Rzero Radd Rleb B L st x = Some st'
    ∧ v_cost st' = Ten t'
    ∧ v_max_inds st' = v_max_inds st ++ [mi]
    ∧ ∀ b j, b < B → j < L →
        ∃ row k,
          mi !! b = Some row ∧ row !! j = Some k ∧ k < L
          ∧ get2 Rzero (v_alpha st') b j
            = Radd (get3 Rzero t' b k j) (get2 Rzero x b j).
Proof.
  intros Hst Hx.
  destruct (viterbi_step_entries B L st x Hst Hx)
    as (t' & mi & alpha' & Hs & _ & Hk).
  eexists _, t', mi. split; [exact Hs|]. repeat (split; [done|]).
  intros b j Hb Hj.
  destruct (Hk b j Hb Hj) as (row & k & Hrow & Hrk & Hlt & _ & Ha).
  by exists row, k.
Qed.

End crf1d_decoder.

(** ** The decoder is right on sequences of one or two positions *)

Section crf1d_decoder_short.
Context {R : Type}.
Variable Rzero : R.
Variable Radd : R → R → R.
Variable Rleb : R → R → bool.

Local Abbreviation vec := (list R).
Local Abbreviation matrix := (list (list R)).

Hypothesis Rleb_total : ∀ a b, Rleb a b = true ∨ Rleb b a = true.
Hypothesis Rleb_trans :
  ∀ a b c, Rleb a b = true → Rleb b c = true → Rleb a c = true.
Hypothesis Radd_assoc : ∀ a b c, Radd a (Radd b c) = Radd (Radd a b) c.
Hypothesis Radd_comm : ∀ a b, Radd a b = Radd b a.
Hypothesis Radd_0_l : ∀ a, Radd Rzero a = a.
Hypothesis Radd_mono :
  ∀ a b c, Rleb a b = true → Rleb (Radd a c) (Radd b c) = true.

Lemma geti_replicate (b l : nat) : geti (replicate (S b) l) b = l.
Proof.
  unfold geti. apply nth_lookup_Some. apply lookup_replicate_2. lia.
Qed.

Lemma path_score_one (cost x0 : matrix) (j b : nat) :
  path_score Rzero Radd cost [x0] [j] b = get2 Rzero x0 b j.
Proof.
  unfold path_score, spec_score, transition_terms, emission_terms, Rsum.
  cbn -[replicate geti get2]. by rewrite geti_replicate, !Radd_0_l.
Qed.

Lemma path_score_two (cost x0 x1 : matrix) (i j b : nat) :
  path_score Rzero Radd cost [x0; x1] [i; j] b
  = Radd (Radd (get2 Rzero x0 b i) (get2 Rzero cost i j)) (get2 Rzero x1 b j).
Proof.
  unfold path_score, spec_score, transition_terms, emission_terms, Rsum.
  cbn -[replicate geti get2]. rewrite !geti_replicate, !Radd_0_l.
  by rewrite Radd_assoc, (Radd_comm (get2 Rzero cost i j)).
Qed.

Lemma gather_lookup (m : list (list nat)) (q p : list nat) (b i : nat) :
  gather m q = Some p → q !! b = Some i →
  ∃ row, m !! b = Some row ∧ p !! b = row !! i ∧ is_Some (row !! i).
Proof.
  intros Hg Hq. unfold gather in Hg. apply mapM_Some_1 in Hg.
  assert (zip (seq 0 (length q)) q !! b = Some (b, i)) as Hz.
  { apply lookup_zip_Some. split; [|done]. apply lookup_seq.
    split; [done|]. by eapply lookup_lt_Some. }
  destruct (Forall2_lookup_l _ _ _ _ _ Hg Hz) as (y & Hy & Hf).
  simpl in Hf. destruct (m !! b) as [row|]; simpl in Hf; [|done].
  exists row. rewrite Hy, Hf. by eauto.
Qed.

Lemma argmax_row_max (row : vec) (j : nat) (v : R) :
  row !! j = Some v →
  ∃ w, row !! argmax_list Rleb row = Some w ∧ Rleb v w = true.
Proof.
  intros Hj.
  assert (row ≠ []) as Hne by (by intros ->).
  destruct (argmax_list_first_max Rleb Rleb_total Rleb_trans row Hne)
    as (w & Hw & Hall & _).
  exists w. split; [done|]. by eapply Hall.
Qed.

(** X4: for sequences of one or two positions the decoder does what its
    name says: on inputs with the shapes of the data model, the label
    sequence it returns for a batch item scores at least as much as every
    other label sequence of that length. *)
Theorem X4_decoder_optimal_up_to_two_positions (B L : nat) (cost : matrix)
    (xs : list matrix) :
  is_mat L L cost → 1 ≤ L → xs ≠ [] → length xs ≤ 2 →
  Forall (is_mat B L) xs →
  ∃ alpha path,
    crf1d_viterbi Rzero Radd Rleb cost xs = Some (alpha, path)
    ∧ ∀ b y, b < B → length y = length xs → Forall (λ l, l < L) y →
        Rleb (path_score Rzero Radd cost xs y b)
             (path_score Rzero Radd cost xs (item_path path b) b) = true.
Proof.
  intros Hc HL Hne Hlen Hxs.
  destruct (viterbi_ok Rzero Radd Rleb B L cost xs Hc HL Hne Hxs)
    as (alpha & path & Hv & Ha & Hpl & Hp).
  exists alpha, path. split; [done|].
  destruct (viterbi_path_structure Rzero Radd Rleb cost xs alpha path Hv)
    as (x0' & st & Hx0 & Hst & -> & Hf & Hlast).
  destruct xs as [|x0 [|x1 [|]]]; simpl in Hlen; try done; try lia.
  - (* one position *)
    injection Hx0 as <-. simpl in Hst. injection Hst as <-. simpl in *.
    inversion Hf; subst. simpl in Hlast. injection Hlast as ->.
    intros b y Hb Hy Hyl. destruct y as [|j [|]]; try done.
    apply Forall_cons in Hyl as [Hj _].
    destruct (is_mat_lookup B L x0 b Ha Hb) as (row & Hrow & Hrl).
    destruct (lookup_lt_is_Some_2 row j) as [v Hvj]; [lia|].
    destruct (argmax_row_max row j v Hvj) as (w & Hw & Hle).
    unfold item_path. simpl. rewrite !path_score_one.
    rewrite (get2_lookup Rzero x0 b j row v Hrow Hvj).
    unfold geti, argmax_2d.
    erewrite (nth_lookup_Some _ b 0); [|by rewrite list_lookup_fmap, Hrow].
    by rewrite (get2_lookup Rzero x0 b _ row w Hrow Hw).
  - (* two positions *)
    injection Hx0 as <-. apply Forall_cons in Hxs as [Hxs0 Hxs1].
    apply Forall_cons in Hxs1 as [Hxs1 _].
    rewrite (proj1 Hc), (proj1 Hxs0) in Hst. simpl in Hst.
    destruct (viterbi_step_entries Rzero Radd Rleb B L
                (VState x0 (Mat cost) []) x1)
      as (t' & mi & alpha' & Hs & Ht & Hk); [by apply wf_state_init|done|].
    rewrite Hs in Hst. simpl in Hst. injection Hst as <-. simpl in *.
    inversion Hf as [|m ms p q rest Hg Hf']; subst.
    inversion Hf'; subst. simpl in Hlast. injection Hlast as ->.
    intros b y Hb Hy Hyl. destruct y as [|i [|j [|]]]; try done.
    apply Forall_cons in Hyl as [Hi Hyl]. apply Forall_cons in Hyl as [Hj _].
    destruct (is_mat_lookup B L alpha' b Ha Hb) as (arow & Harow & Harl).
    set (js := argmax_list Rleb arow).
    assert (argmax_2d Rleb alpha' !! b = Some js) as Hq.
    { unfold argmax_2d. by rewrite list_lookup_fmap, Harow. }
    assert (js < L) as Hjs.
    { unfold js. rewrite <- Harl. apply argmax_list_bound.
      intros ->. simpl in Harl. lia. }
    destruct (Hk b js Hb Hjs) as (rows & ks & Hrows & Hks & Hksl & _ & Has).
    destruct (Hk b j Hb Hj) as (rowj & kj & Hrowj & Hkj & Hkjl & Hkje & Haj).
    destruct (gather_lookup mi _ p b js Hg Hq) as (row' & Hrow' & Hpb & _).
    rewrite Hrows in Hrow'. injection Hrow' as <-. rewrite Hks in Hpb.
    unfold item_path. simpl. unfold geti.
    rewrite (nth_lookup_Some p b 0 ks Hpb), (nth_lookup_Some _ b 0 js Hq).
    rewrite !path_score_two.
    rewrite <- (Ht b i j Hb Hi Hj), <- (Ht b ks js Hb Hksl Hjs), <- Has.
    (* the entry at (i, j) is below the maximum of column j *)
    assert (Rleb (get3 Rzero t' b i j) (get3 Rzero t' b kj j) = true) as H1.
    { assert (((λ i, get3 Rzero t' b i j) <$> seq 0 L) !! i
              = Some (get3 Rzero t' b i j)) as Hci.
      { rewrite list_lookup_fmap. by rewrite (proj2 (lookup_seq 0 L i i)). }
      destruct (argmax_row_max _ i _ Hci) as (w & Hw & Hle).
      rewrite <- Hkje, list_lookup_fmap in Hw.
      rewrite (proj2 (lookup_seq 0 L kj kj)) in Hw by done.
      simpl in Hw. by injection Hw as <-. }
    (* alpha at j is below alpha at the final argmax *)
    assert (Rleb (get2 Rzero alpha' b j) (get2 Rzero alpha' b js) = true)
      as H2.
    { destruct (lookup_lt_is_Some_2 arow j) as [v Hvj]; [lia|].
      destruct (argmax_row_max arow j v Hvj) as (w & Hw & Hle).
      by rewrite (get2_lookup Rzero alpha' b j arow v Harow Hvj),
        (get2_lookup Rzero alpha' b js arow w Harow Hw). }
    eapply Rleb_trans; [|exact H2].
    rewrite Haj. by apply Radd_mono.
Qed.

End crf1d_decoder_short.

(** ** When the scorer and the decoder raise, and what [zip] leaves out *)

Section crf1d_errors.
Context {R : Type}.
Variable Rzero : R.
Variables Radd Rsub : R → R → R.
Variable Rleb : R → R → bool.
Variable lse : list R → R.

Local Abbreviation vec := (list R).
Local Abbreviation matrix := (list (list R)).

(** X5: on emission tensors of shape [(B, L)] and an [(L, L)] cost matrix
    with [L >= 1], [crf1d_viterbi] raises exactly when the sequence is
    empty, and the [alpha] it returns otherwise has shape [(B, L)]. *)
Theorem X5_decoder_raises_only_on_empty (B L : nat) (cost : matrix)
    (xs : list matrix) :
  is_mat L L cost → 1 ≤ L → Forall (is_mat B L) xs →
  (crf1d_viterbi Rzero Radd Rleb cost xs = None ↔ xs = [])
  ∧ ∀ alpha path,
      crf1d_viterbi Rzero Radd Rleb cost xs = Some (alpha, path) →
      is_mat B L alpha.
Proof.
  intros Hc HL Hxs. destruct xs as [|x0 rest].
  - by repeat split.
  - destruct (viterbi_ok Rzero Radd Rleb B L cost (x0 :: rest))
      as (alpha & path & Hv & Ha & _); [done..|].
    rewrite Hv. split; [by split|]. by intros ? ? [= <- <-].
Qed.

Lemma select_item_bad (B L : nat) (x : matrix) (y : list nat) (b l : nat) :
  is_mat B L x → length y = B → y !! b = Some l → L ≤ l →
  select_item x y = None.
Proof.
  intros Hx Hy Hl Hle. unfold select_item. case_decide; [|done].
  destruct (is_mat_lookup B L x b Hx) as (row & Hrow & Hrl).
  { rewrite <- Hy. by eapply lookup_lt_Some. }
  apply mapM_None_2, Exists_exists. exists (row, l). split.
  - apply (list_elem_of_lookup_2 _ b). by apply lookup_zip_Some.
  - simpl. apply lookup_ge_None_2. lia.
Qed.

Lemma emission_loop_bad (pairs : list (matrix * list nat)) (s : score_t) :
  Exists (λ p, select_item p.1 p.2 = None) pairs →
  emission_loop Rzero Radd s pairs = None.
Proof.
  intros H. revert s. induction H as [[x y] pairs Hxy|[x y] pairs _ IH];
    intros s; simpl in *.
  - by rewrite Hxy.
  - destruct (select_item x y); simpl; [apply IH|done].
Qed.

(** A label outside [[0, L)] makes [crf1d] raise, whatever comes before. *)
Lemma crf1d_bad_label (B L : nat) (cost : matrix) (xs : list matrix)
    (ys : list (list nat)) (t b l : nat) (y : list nat) :
  Forall (is_mat B L) xs → length ys = length xs →
  Forall (λ y, length y = B) ys →
  ys !! t = Some y → y !! b = Some l → L ≤ l →
  crf1d Rzero Radd Rsub lse cost xs ys = None.
Proof.
  intros Hxs Hlen Hys Hy Hl Hle.
  destruct (lookup_lt_is_Some_2 xs t) as [x Hx].
  { rewrite <- Hlen. by eapply lookup_lt_Some. }
  assert (emission_loop_none :
            ∀ s, emission_loop Rzero Radd s (zip xs ys) = None).
  { intros s. apply emission_loop_bad, Exists_exists. exists (x, y). split.
    - apply (list_elem_of_lookup_2 _ t). by apply lookup_zip_Some.
    - simpl. apply (select_item_bad B L x y b l); [|  |done..].
      + exact (Forall_lookup_1 _ _ _ _ Hxs Hx).
      + exact (Forall_lookup_1 _ _ _ _ Hys Hy). }
  unfold crf1d. destruct (head xs) as [x0|]; simpl; [|done].
  destruct (forward_loop _ _ _ _ _ _ _ _) as [alpha|]; simpl; [|done].
  destruct (transition_loop _ _ _ _ _ _ _) as [s|]; simpl; [|done].
  by rewrite emission_loop_none.
Qed.

Lemma labels_in_range_dec (L : nat) (ys : list (list nat)) :
  Forall (Forall (λ l, l < L)) ys
  ∨ ∃ t y b l, ys !! t = Some y ∧ y !! b = Some l ∧ L ≤ l.
Proof.
  destruct (decide (Forall (Forall (λ l, l < L)) ys)) as [H|H]; [by left|].
  right. apply not_Forall_Exists in H; [|apply _].
  apply Exists_exists in H as (y & Hy & Hbad).
  apply not_Forall_Exists in Hbad; [|apply _].
  apply Exists_exists in Hbad as (l & Hl & Hge).
  apply list_elem_of_lookup in Hy as [t Ht].
  apply list_elem_of_lookup in Hl as [b Hb].
  exists t, y, b, l. repeat (split; [done|]). simpl in Hge. lia.
Qed.

Lemma labels_shape (B L : nat) (ys : list (list nat)) :
  Forall (λ y, length y = B) ys → Forall (Forall (λ l, l < L)) ys →
  Forall (is_labels B L) ys.
Proof.
  intros H1 H2. induction H1 as [|y ys Hy _ IH]; [constructor|].
  apply Forall_cons in H2 as [Hl H2]. constructor; [by split|by apply IH].
Qed.


Lemma zip_min {A C} (l : list A) (k : list C) (d : A) (e : C) :
  zip l k
  = (λ t, (nth t l d, nth t k e)) <$> seq 0 (length l `min` length k).
Proof.
  revert k. induction l as [|x l IH]; intros [|y k]; simpl; try done.
  rewrite <- fmap_S_seq, <- list_fmap_compose. f_equal. apply IH.
Qed.

(** X7: [crf1d] never compares the number of label vectors with the number
    of emission tensors.  On inputs with the shapes of the data model but
    any number of label vectors, it returns [logZ] over all of [xs], minus
    the sum of the transition costs over all consecutive label vectors and
    of the emissions at the positions that both sequences have; with no
    label vector at all it returns [logZ - 0]. *)
Theorem X7_crf1d_unequal_lengths (B L : nat) (cost : matrix)
    (xs : list matrix) (ys : list (list nat)) :
  is_mat L L cost → xs ≠ [] → Forall (is_mat B L) xs →
  Forall (is_labels B L) ys →
  ∃ loss,
    crf1d Rzero Radd Rsub lse cost xs ys = Some loss
    ∧ length loss = B
    ∧ ∀ b, b < B →
        loss !! b
        = Some (Rsub (spec_logZ Rzero Radd lse cost L xs b)
                     (foldl Radd Rzero
                        (transition_terms Rzero cost ys b
                         ++ emission_terms Rzero
                              (take (length ys) xs) ys b))).
Proof.
  intros Hc Hne Hxs Hys. destruct xs as [|x0 rest]; [done|].
  pose proof Hxs as Hxs'. apply Forall_cons in Hxs' as [Hx0 Hrest].
  assert (Forall (λ p, is_mat B L p.1 ∧ is_labels B L p.2)
            (zip (x0 :: rest) ys)) as Hp2 by (by apply Forall_zip_both).
  assert (∀ b,
            ((λ p : list nat * list nat,
                get2 Rzero cost (geti p.1 b) (geti p.2 b))
               <$> zip (but_last ys) (tail ys))
            ++ ((λ p : matrix * list nat, get2 Rzero p.1 b (geti p.2 b))
                  <$> zip (x0 :: rest) ys)
            = transition_terms Rzero cost ys b
              ++ emission_terms Rzero (take (length ys) (x0 :: rest)) ys b)
    as Hterms.
  { intros b. unfold transition_terms, emission_terms. f_equal.
    - rewrite (zip_but_last_tail ys []). by rewrite <- list_fmap_compose.
    - rewrite (zip_min (x0 :: rest) ys [] []), <- list_fmap_compose.
      rewrite length_take, (Nat.min_comm (length ys)).
      apply list_fmap_ext. intros ? t [-> Ht]%lookup_seq.
      cbn [Nat.add fst snd compose].
      rewrite (nth_lookup (take _ _)), lookup_take_lt by lia.
      by rewrite <- nth_lookup. }
  unfold crf1d. remember (zip (x0 :: rest) ys) as ps2 eqn:Hps2. simpl.
  rewrite (proj1 Hc), (proj1 Hx0).
  destruct (forward_loop_spec Rzero Radd lse B L cost rest x0
              (get2 Rzero x0))
    as (alpha & -> & [Ha Hf]); [done|by split|done|].
  simpl.
  destruct (transition_loop_spec Rzero Radd B L cost
              (zip (but_last ys) (tail ys)) PyZero (λ _, []))
    as (s1 & -> & Hs1); [done| |done|].
  { apply Forall_zip_both.
    - unfold but_last. by apply Forall_take.
    - destruct Hys; [constructor|done]. }
  simpl.
  destruct (emission_loop_spec Rzero Radd B L _ s1 _ Hp2 Hs1)
    as (s2 & -> & Hs2).
  subst ps2. simpl. eexists. split; [done|].
  assert (∀ b, b < B →
            logsumexp_2d lse alpha !! b
            = Some (spec_logZ Rzero Radd lse cost L (x0 :: rest) b))
    as Hlogz.
  { intros b Hb.
    destruct (is_mat_lookup B L alpha b Ha Hb) as (a & Hab & Hal).
    unfold logsumexp_2d, spec_logZ, spec_alpha.
    rewrite list_lookup_fmap, Hab. simpl. do 2 f_equal.
    apply (list_eq_tabulate L a Rzero); [done|]. intros j Hj.
    rewrite <- (Hf b j Hb Hj). unfold get2.
    by rewrite (nth_lookup_Some alpha b [] a Hab). }
  assert (length (logsumexp_2d lse alpha) = B) as Hll.
  { unfold logsumexp_2d. rewrite length_fmap. apply Ha. }
  destruct s2 as [|v]; cbn [score_rep sub_score] in Hs2 |- *.
  - split; [by rewrite length_fmap|]. intros b Hb.
    rewrite list_lookup_fmap, (Hlogz b Hb). simpl.
    rewrite <- Hterms. specialize (Hs2 b Hb). simpl in Hs2.
    change (match ys with [] => [] | y :: l => (x0, y) :: zip rest l end)
      with (zip (x0 :: rest) ys) in Hs2.
    by rewrite Hs2.
  - destruct Hs2 as [Hv Hs2]. unfold vsub. split.
    { rewrite length_zip_with. lia. }
    intros b Hb.
    rewrite lookup_zip_with, (Hlogz b Hb), (Hs2 b Hb). simpl.
    do 2 f_equal. rewrite <- Hterms. done.
Qed.

End crf1d_errors.

(** ** Stacking batches of any sizes *)

Section crf1d_stacking.
Context {R : Type}.
Variable Rzero : R.
Variables Radd Rsub : R → R → R.
Variable Rleb : R → R → bool.
Variable lse : list R → R.

Local Abbreviation vec := (list R).
Local Abbreviation matrix := (list (list R)).

Lemma stack_lengths {A} (BA BB : nat) (lA lB : list (list A)) :
  length lA = length lB →
  Forall (λ a, length a = BA) lA → Forall (λ a, length a = BB) lB →
  Forall (λ a, length a = BA + BB) (stack lA lB).
Proof.
  intros Hlen HA. revert lB Hlen.
  induction HA as [|a lA Ha _ IH]; intros [|c lB] Hlen HB; simpl in Hlen;
    try done; try (by constructor).
  apply Forall_cons in HB as [Hc HB]. constructor.
  - rewrite length_app. lia.
  - apply IH; [lia|done].
Qed.

Lemma stack_lookup {A} (lA lB : list (list A)) (t : nat) (a c : list A) :
  lA !! t = Some a → lB !! t = Some c → stack lA lB !! t = Some (a ++ c).
Proof. intros Ha Hc. unfold stack. by rewrite lookup_zip_with, Ha, Hc. Qed.

(** X8: scoring the batch obtained by stacking two batches of any sizes
    gives the losses of the first batch followed by those of the second,
    and raises exactly when scoring one of the two raises. *)
Theorem X8_crf1d_of_stacked_batches (BA BB L : nat) (cost : matrix)
    (xsA xsB : list matrix) (ysA ysB : list (list nat)) :
  is_mat L L cost → length xsA = length xsB →
  Forall (is_mat BA L) xsA → Forall (is_mat BB L) xsB →
  length ysA = length xsA → length ysB = length xsB →
  Forall (λ y, length y = BA) ysA → Forall (λ y, length y = BB) ysB →
  crf1d Rzero Radd Rsub lse cost (stack xsA xsB) (stack ysA ysB)
  = (lossA ← crf1d Rzero Radd Rsub lse cost xsA ysA;
     lossB ← crf1d Rzero Radd Rsub lse cost xsB ysB;
     Some (lossA ++ lossB)).
Proof.
  intros Hc Hlen HxA HxB HlA HlB HyA HyB.
  destruct xsA as [|xA restA].
  { destruct xsB; [|done]. by destruct ysA. }
  assert (Forall (is_mat (BA + BB) L) (stack (xA :: restA) xsB)) as Hxs
    by (by apply stack_shape).
  assert (length (stack ysA ysB) = length (stack (xA :: restA) xsB)) as Hl
    by (rewrite !length_stack; lia).
  assert (Forall (λ y, length y = BA + BB) (stack ysA ysB)) as Hys
    by (apply stack_lengths; [lia|done..]).
  destruct (labels_in_range_dec L ysA) as [HinA|(t & y & b & l & Hy & Hb & Hle)].
  - destruct (labels_in_range_dec L ysB)
      as [HinB|(t & y & b & l & Hy & Hb & Hle)].
    + destruct (crf1d_stack Rzero Radd Rsub lse BA BB L cost
                  (xA :: restA) xsB ysA ysB)
        as (lossA & lossB & -> & -> & _ & _ & ->);
        [done..|by apply labels_shape|by apply labels_shape|done].
    + rewrite (crf1d_bad_label Rzero Radd Rsub lse BB L cost xsB ysB
                 t b l y) by done.
      destruct (lookup_lt_is_Some_2 ysA t) as [yA HyA'].
      { rewrite HlA, Hlen, <- HlB. by eapply lookup_lt_Some. }
      rewrite (crf1d_bad_label Rzero Radd Rsub lse (BA + BB) L cost
                 (stack (xA :: restA) xsB) (stack ysA ysB)
                 t (length yA + b) l (yA ++ y));
        [|done|done|done| | |done].
      * by destruct (crf1d _ _ _ _ cost (xA :: restA) ysA).
      * by apply stack_lookup.
      * rewrite lookup_app_r by lia. by rewrite Nat.add_comm, Nat.add_sub.
  - rewrite (crf1d_bad_label Rzero Radd Rsub lse BA L cost (xA :: restA) ysA
               t b l y) by done.
    destruct (lookup_lt_is_Some_2 ysB t) as [yB HyB'].
    { rewrite HlB, <- Hlen, <- HlA. by eapply lookup_lt_Some. }
    by rewrite (crf1d_bad_label Rzero Radd Rsub lse (BA + BB) L cost
                  (stack (xA :: restA) xsB) (stack ysA ysB)
                  t b l (y ++ yB))
      by (done || by apply stack_lookup || by apply lookup_app_l_Some).
Qed.

(** X9: decoding the batch obtained by stacking two batches of any sizes
    gives the rows of [alpha] of the first batch followed by those of the
    second, and at every position the labels of the first batch followed by
    those of the second. *)
Theorem X9_viterbi_of_stacked_batches (BA BB L : nat) (cost : matrix)
    (xsA xsB : list matrix) :
  is_mat L L cost → 1 ≤ L → length xsA = length xsB →
  Forall (is_mat BA L) xsA → Forall (is_mat BB L) xsB →
  crf1d_viterbi Rzero Radd Rleb cost (stack xsA xsB)
  = (rA ← crf1d_viterbi Rzero Radd Rleb cost xsA;
     rB ← crf1d_viterbi Rzero Radd Rleb cost xsB;
     Some (rA.1 ++ rB.1, stack rA.2 rB.2)).
Proof.
  intros Hc HL Hlen HxA HxB. destruct xsA as [|xA restA].
  { by destruct xsB. }
  by destruct (viterbi_stack Rzero Radd Rleb BA BB L cost (xA :: restA) xsB)
    as (aA & aB & pA & pB & -> & -> & _ & _ & ->).
Qed.

End crf1d_stacking.

(** ** The result dictionary and the order of [__dict__] *)

Section updater_order.
Import Updater.
Context {array callable : Type}.
Variable size : array → nat.
Context `{Optimizer array callable Opt}.

Lemma collect_items_snoc (items : list (string * attr (array:=array)))
    (name : string) (value : attr) :
  collect_items size (items ++ [(name, value)])
  = collect size name value (collect_items size items).
Proof. unfold collect_items. by rewrite foldl_snoc. Qed.

Lemma collect_items_lookup (items : list (string * attr (array:=array)))
    (name : string) (x : array) :
  NoDup items.*1 →
  collect_items size items !! name = Some x
  ↔ ∃ v, (name, AttrVariable v) ∈ items ∧ data v = x ∧ size x = 1.
Proof.
  revert name x. induction items as [|[n value] items IH] using rev_ind;
    intros name x Hnd.
  - unfold collect_items. simpl. rewrite lookup_empty. split; [done|].
    intros (v & Hv & _). by apply elem_of_nil in Hv.
  - rewrite fmap_app in Hnd. apply NoDup_app in Hnd as (Hnd & Hfresh & _).
    assert (n ∉ items.*1) as Hn.
    { intros Hin. apply (Hfresh n Hin). simpl. by left. }
    assert (∀ a, (n, a) ∉ items) as Hn'.
    { intros a Ha. apply Hn. apply list_elem_of_fmap. by exists (n, a). }
    rewrite collect_items_snoc.
    destruct (decide (n = name)) as [->|Hne].
    + assert (collect_items size items !! name = None) as Hr.
      { destruct (collect_items size items !! name) as [y|] eqn:Hy; [|done].
        apply IH in Hy as (v & Hv & _); [|done]. by apply Hn' in Hv. }
      assert (∀ v, (name, AttrVariable v) ∈ items ++ [(name, value)]
                   ↔ value = AttrVariable v) as Hmem.
      { intros v. rewrite elem_of_app, list_elem_of_singleton. split.
        - intros [Hin|[= <-]]; [by apply Hn' in Hin|done].
        - intros ->. by right. }
      destruct value as [v|d|a|]; simpl;
        try (rewrite Hr; split; [done|];
             intros (v' & Hv' & _); by apply Hmem in Hv').
      case_decide as Hsz.
      * rewrite lookup_insert_eq. split.
        -- intros [= <-]. exists v. by rewrite Hmem.
        -- intros (v' & Hv' & <- & _). apply Hmem in Hv'. by injection Hv' as <-.
      * rewrite Hr. split; [done|].
        intros (v' & Hv' & <- & Hx). apply Hmem in Hv'.
        by injection Hv' as <-.
    + assert (collect size n value (collect_items size items) !! name
              = collect_items size items !! name) as ->.
      { destruct value as [v|d|a|]; simpl; try done.
        case_decide; [|done]. by rewrite lookup_insert_ne. }
      rewrite IH by done. split.
      * intros (v & Hv & Hx). exists v. split; [|done].
        apply elem_of_app. by left.
      * intros (v & Hv & Hx). exists v. split; [|done].
        apply elem_of_app in Hv as [Hv|Hv]; [done|].
        apply list_elem_of_singleton in Hv. congruence.
Qed.

(** X10: the mapping [StandardUpdater.__call__] returns does not depend on
    the order in which the target's [__dict__] yields its items: running
    the loop of lines 87-92 over the items in any order gives the same
    mapping. *)
Theorem X10_result_independent_of_dict_order
    (self : StandardUpdater (callable:=callable)) (inputs : inputs_t)
    (w : world Opt) (items : list (string * attr)) :
  items ≡ₚ map_to_list
             (target (w_opt (StandardUpdater_call size self inputs w).2)) →
  (StandardUpdater_call size self inputs w).1
  = Return (collect_items size items).
Proof.
  intros Hperm. simpl in *. f_equal. apply map_eq. intros name.
  apply option_eq. intros x.
  rewrite collect_lookup, collect_items_lookup.
  - split; intros (v & Hv & Hx); exists v; (split; [|done]).
    + rewrite Hperm. by apply elem_of_map_to_list.
    + rewrite Hperm in Hv. by apply elem_of_map_to_list in Hv.
  - rewrite Hperm. apply NoDup_fst_map_to_list.
Qed.

End updater_order.

(** ** The second iteration of the decoder's loop *)

Section crf1d_second_step.
Context {R : Type}.
Variable Rzero : R.
Variable Radd : R → R → R.
Variable Rleb : R → R → bool.

Local Abbreviation matrix := (list (list R)).

(** X11: on every input with the shapes of the data model and at least
    three positions, the tensor of the second iteration of the loop of
    [crf1d_viterbi] has at [[b][i][j]] the entry
    [alpha_1[b][i] + (xs[0][b][i] + cost[i][j])]: the emission of the
    first position at the previous label [i] is added once more. *)
Theorem X11_second_step_tensor (B L : nat) (cost x0 x1 x2 : matrix) :
  is_mat L L cost → is_mat B L x0 → is_mat B L x1 → is_mat B L x2 →
  ∃ st1 st2 t2,
    viterbi_step Rzero Radd Rleb B L (VState x0 (Mat cost) []) x1 = Some st1
    ∧ viterbi_step Rzero Radd Rleb B L st1 x2 = Some st2
    ∧ v_cost st2 = Ten t2
    ∧ ∀ b i j, b < B → i < L → j < L →
        get3 Rzero t2 b i j
        = Radd (get2 Rzero (v_alpha st1) b i)
               (Radd (get2 Rzero x0 b i) (get2 Rzero cost i j)).
Proof.
  intros Hc Hx0 Hx1 Hx2.
  pose proof (wf_state_init B L cost x0 Hc Hx0) as Hw0.
  destruct (viterbi_step_entries Rzero Radd Rleb B L _ x1 Hw0 Hx1)
    as (t1 & mi1 & alpha1 & Hs1 & Ht1 & _).
  destruct (wf_state_step Rzero Radd Rleb B L _ x1 Hw0 Hx1)
    as (st1 & Hs1' & Hw1 & _).
  rewrite Hs1 in Hs1'. injection Hs1' as <-.
  destruct (viterbi_step_entries Rzero Radd Rleb B L _ x2 Hw1 Hx2)
    as (t2 & mi2 & alpha2 & Hs2 & Ht2 & _).
  eexists _, _, t2. split; [exact Hs1|]. split; [exact Hs2|].
  split; [done|]. intros b i j Hb Hi Hj.
  rewrite (Ht2 b i j Hb Hi Hj). simpl. by rewrite (Ht1 b i j Hb Hi Hj).
Qed.

End crf1d_second_step.

(** ** The further theorems at concrete inputs *)

Section crf1d_more_witnesses.
Import Instances.

Local Ltac shapes :=
  repeat first [ done | split | constructor ].

Lemma Z_add_mono (a b c : Z) :
  (a <=? b)%Z = true → (a + c <=? b + c)%Z = true.
Proof. rewrite !Z.leb_le. lia. Qed.

Lemma X1_witness :
  ∃ x0 st,
    head xs3 = Some x0
    ∧ viterbi_loop 0%Z Z.add Z.leb (length x0) (length cost0)
        (VState x0 (Mat cost0) []) (tail xs3) = Some st
    ∧ [[20; 20]]%Z = v_alpha st
    ∧ length [[1]; [1]; [0]] = S (length (v_max_inds st))
    ∧ last [[1]; [1]; [0]] = Some (argmax_2d Z.leb [[20; 20]]%Z)
    ∧ ∀ t m p q,
        v_max_inds st !! t = Some m → [[1]; [1]; [0]] !! t = Some p →
        [[1]; [1]; [0]] !! S t = Some q → gather m q = Some p.
Proof.
  apply (X1_path_follows_backpointers 0%Z Z.add Z.leb cost0 xs3). reflexivity.
Defined.

Lemma X2_witness :
  ∃ st' t',
    viterbi_step_Z 1 2 (VState [[0; 10]]%Z (Mat cost0) []) [[5; 0]]%Z
    = Some st'
    ∧ v_cost st' = Ten t'
    ∧ ∀ b i j, b < 1 → i < 2 → j < 2 →
        get3 0%Z t' b i j
        = (get2 0 [[0; 10]] b i + get2 0 cost0 i j)%Z.
Proof.
  apply (X2_step_adds_alpha_to_current_cost 0%Z Z.add Z.leb 1 2
           (VState [[0; 10]]%Z (Mat cost0) []) [[5; 0]]%Z); shapes.
Defined.

Lemma X3_witness :
  ∃ st' t' mi,
    viterbi_step_Z 1 2 (VState [[0; 10]]%Z (Mat cost0) []) [[5; 0]]%Z
    = Some st'
    ∧ v_cost st' = Ten t'
    ∧ v_max_inds st' = [] ++ [mi]
    ∧ ∀ b j, b < 1 → j < 2 →
        ∃ row k,
          mi !! b = Some row ∧ row !! j = Some k ∧ k < 2
          ∧ get2 0%Z (v_alpha st') b j
            = (get3 0 t' b k j + get2 0 [[5; 0]] b j)%Z.
Proof.
  apply (X3_alpha_is_attained_at_backpointer 0%Z Z.add Z.leb 1 2
           (VState [[0; 10]]%Z (Mat cost0) []) [[5; 0]]%Z); shapes.
Defined.

Lemma X4_witness :
  ∃ alpha path,
    crf1d_viterbi_Z cost0 (take 2 xs3) = Some (alpha, path)
    ∧ ∀ b y, b < 1 → length y = 2 → Forall (λ l, l < 2) y →
        (path_score_Z cost0 (take 2 xs3) y b
         <=? path_score_Z cost0 (take 2 xs3) (item_path path b) b)%Z = true.
Proof.
  apply (X4_decoder_optimal_up_to_two_positions 0%Z Z.add Z.leb
           Z_leb_total Z_leb_trans Z.add_assoc Z.add_comm Z.add_0_l
           Z_add_mono 1 2 cost0 (take 2 xs3)); shapes.
Defined.

Lemma X5_witness :
  (crf1d_viterbi_Z cost0 xs3 = None ↔ xs3 = [])
  ∧ ∀ alpha path,
      crf1d_viterbi_Z cost0 xs3 = Some (alpha, path) → is_mat 1 2 alpha.
Proof.
  apply (X5_decoder_raises_only_on_empty 0%Z Z.add Z.leb 1 2 cost0 xs3);
    shapes.
Defined.


Lemma X7_witness :
  ∃ loss,
    crf1d_Z cost0 xs3 [[1]] = Some loss
    ∧ length loss = 1
    ∧ ∀ b, b < 1 →
        loss !! b
        = Some (Z.sub (spec_logZ 0%Z Z.add lse_Z cost0 2 xs3 b)
                      (foldl Z.add 0%Z
                         (transition_terms 0%Z cost0 [[1]] b
                          ++ emission_terms 0%Z (take 1 xs3) [[1]] b))).
Proof.
  apply (X7_crf1d_unequal_lengths 0%Z Z.add Z.sub lse_Z 1 2 cost0 xs3 [[1]]);
    shapes.
Defined.

Lemma X8_witness :
  crf1d_Z cost0 (stack xs3 xs3') (stack ys3 ys3')
  = (lossA ← crf1d_Z cost0 xs3 ys3;
     lossB ← crf1d_Z cost0 xs3' ys3';
     Some (lossA ++ lossB)).
Proof.
  apply (X8_crf1d_of_stacked_batches 0%Z Z.add Z.sub lse_Z 1 1 2 cost0
           xs3 xs3' ys3 ys3'); shapes.
Defined.

Lemma X9_witness :
  crf1d_viterbi_Z cost0 (stack xs3 xs3')
  = (rA ← crf1d_viterbi_Z cost0 xs3;
     rB ← crf1d_viterbi_Z cost0 xs3';
     Some (rA.1 ++ rB.1, stack rA.2 rB.2)).
Proof.
  apply (X9_viterbi_of_stacked_batches 0%Z Z.add Z.leb 1 1 2 cost0
           xs3 xs3'); shapes.
Defined.

Lemma X10_witness :
  (Updater.StandardUpdater_call (length (A:=Z))
     (Updater.StandardUpdater_init None) (Updater.InOther [0%Z])
     (Updater.World (ToyOptimizer toy_model) [])).1
  = Updater.Return
      (Updater.collect_items (length (A:=Z))
         (reverse
            (map_to_list
               (<["loss" :=
                    Updater.AttrVariable {| Updater.data := [7%Z] |}]>
                  toy_model)))).
Proof.
  apply (X10_result_independent_of_dict_order (length (A:=Z))
           (Updater.StandardUpdater_init None) (Updater.InOther [0%Z])
           (Updater.World (ToyOptimizer toy_model) [])).
  apply reverse_Permutation.
Defined.

Lemma X11_witness :
  ∃ st1 st2 t2,
    viterbi_step_Z 1 2 (VState [[0; 10]]%Z (Mat cost0) []) [[5; 0]]%Z
    = Some st1
    ∧ viterbi_step_Z 1 2 st1 [[0; 0]]%Z = Some st2
    ∧ v_cost st2 = Ten t2
    ∧ ∀ b i j, b < 1 → i < 2 → j < 2 →
        get3 0%Z t2 b i j
        = (get2 0 (v_alpha st1) b i
           + (get2 0 [[0; 10]] b i + get2 0 cost0 i j))%Z.
Proof.
  apply (X11_second_step_tensor 0%Z Z.add Z.leb 1 2 cost0
           [[0; 10]]%Z [[5; 0]]%Z [[0; 0]]%Z); shapes.
Defined.

End crf1d_more_witnesses.
